(** * guild.plugins.skopt: flag encoder, operation catalog and alias resolver

    A shallow embedding of [src/guild/plugins/skopt.py].  Python values are
    a small dynamically-typed universe [PyVal]; the items of a Python
    [dict] are an insertion-ordered association list; a call that may raise
    returns a [result].  The flag encoder is a pure function of values.  The
    catalog is built by changing dictionaries in place, so its dictionaries
    and lists are objects of a store and its functions are computations on
    that store. *)

From Stdlib Require Import ZArith String Ascii List Bool Lia.
From Stdlib Require Import PrimFloat FloatOps SpecFloat DecimalString.
Import ListNotations.

Set Warnings "-inexact-float,-register-all".
Local Open Scope string_scope.

(** ** Python values *)

(** The values that travel through this module: what [yaml.safe_load]
    produces and what a flag value can be.  [float] is the IEEE binary64 of
    Python's [float]. *)
Inductive PyVal : Type :=
| VNone
| VBool (b : bool)
| VInt (z : Z)
| VFloat (f : float)
| VStr (s : string)
| VList (items : list PyVal)
| VDict (items : list (string * PyVal)).

(** Induction on a value with its items. *)
Section PyValInduction.

Variable P : PyVal -> Prop.
Hypothesis P_none : P VNone.
Hypothesis P_bool : forall b, P (VBool b).
Hypothesis P_int : forall z, P (VInt z).
Hypothesis P_float : forall f, P (VFloat f).
Hypothesis P_str : forall s, P (VStr s).
Hypothesis P_list : forall items, Forall P items -> P (VList items).
Hypothesis P_dict :
  forall items, Forall (fun kv => P (snd kv)) items -> P (VDict items).

Fixpoint PyVal_items_ind (v : PyVal) : P v :=
  match v with
  | VNone => P_none
  | VBool b => P_bool b
  | VInt z => P_int z
  | VFloat f => P_float f
  | VStr s => P_str s
  | VList items =>
      P_list items
        ((fix all (l : list PyVal) : Forall P l :=
            match l with
            | [] => Forall_nil P
            | x :: rest => Forall_cons x (PyVal_items_ind x) (all rest)
            end) items)
  | VDict items =>
      P_dict items
        ((fix all (l : list (string * PyVal)) : Forall (fun kv => P (snd kv)) l :=
            match l with
            | [] => Forall_nil _
            | kv :: rest => Forall_cons kv (PyVal_items_ind (snd kv)) (all rest)
            end) items)
  end.

End PyValInduction.

(** [x is not None] *)
Definition is_not_none (v : PyVal) : bool :=
  match v with
  | VNone => false
  | _ => true
  end.

(** ** Exceptions *)

(** [SystemError] is what a read through a dangling reference gives in the
    store model below; a store built by this module has none. *)
Inductive exn : Type :=
| AssertionError
| AttributeError
| RuntimeError
| SystemError.

Inductive result (A : Type) : Type :=
| Returns (a : A)
| Raises (e : exn).

Arguments Returns {A} a.
Arguments Raises {A} e.

(** ** Dictionaries *)

(** The items of a Python [dict] with string keys, in insertion order; the
    first binding of a key is its binding. *)
Module Dict.

Definition t (V : Type) : Type := list (string * V).

(** [d.get(k)] *)
Fixpoint get {V : Type} (d : t V) (k : string) : option V :=
  match d with
  | [] => None
  | (k', v) :: rest => if String.eqb k k' then Some v else get rest k
  end.

(** [k in d] *)
Definition contains {V : Type} (d : t V) (k : string) : bool :=
  match get d k with
  | Some _ => true
  | None => false
  end.

(** [d[k] = v]: an existing key keeps its position, a new key goes last. *)
Fixpoint set {V : Type} (d : t V) (k : string) (v : V) : t V :=
  match d with
  | [] => [(k, v)]
  | (k', v') :: rest =>
      if String.eqb k k' then (k', v) :: rest else (k', v') :: set rest k v
  end.

(** [d.update(other)] *)
Definition update {V : Type} (d other : t V) : t V :=
  fold_left (fun acc kv => set acc (fst kv) (snd kv)) other d.

(** [d.keys()] *)
Definition keys {V : Type} (d : t V) : list string := map fst d.

(** [d.values()] *)
Definition values {V : Type} (d : t V) : list V := map snd d.

(** The same dictionary with every value mapped through [f]. *)
Definition map_values {V W : Type} (f : V -> W) (d : t V) : t W :=
  map (fun kv => (fst kv, f (snd kv))) d.

End Dict.

(** ** Flag definitions *)

(** Modelled from the spec: the [FlagChoice] and [FlagDef] classes of the
    host (guild.guildfile) are declared outside this module; the encoder
    reads [c.value] of a choice and [choices], [min], [max] and
    [distribution] of a flag definition. *)
Module FlagChoice.
Record t : Type := mk {
  value : PyVal;
  description : option string
}.
End FlagChoice.

Module FlagDef.
Record t : Type := mk {
  choices : option (list FlagChoice.t);
  min : PyVal;
  max : PyVal;
  distribution : option string
}.
End FlagDef.

(** Truth value of [flagdef.choices]: [None] and the empty list are falsy. *)
Definition truthy_choices (choices : option (list FlagChoice.t)) : bool :=
  match choices with
  | Some (_ :: _) => true
  | _ => false
  end.

(** Iterating [flagdef.choices] in the list comprehension. *)
Definition iter_choices (choices : option (list FlagChoice.t)) : list FlagChoice.t :=
  match choices with
  | Some cs => cs
  | None => []
  end.

(** [s or default] for an optional string: [None] and the empty string are
    falsy. *)
Definition str_or (s : option string) (default : string) : string :=
  match s with
  | Some EmptyString => default
  | Some name => name
  | None => default
  end.

(** ** Flag encoders *)

Section FlagEncoders.

(** [flag_util.encode_flag_val], the host's shared value-encoding utility:
    the canonical string form of a value. *)
Variable encode_flag_val : PyVal -> string.

Definition _encode_function (flagdef : FlagDef.t) (val : PyVal) : result PyVal :=
  if is_not_none (FlagDef.min flagdef) && is_not_none (FlagDef.max flagdef) then
    let func_name := str_or (FlagDef.distribution flagdef) "uniform" in
    let low := encode_flag_val (FlagDef.min flagdef) in
    let high := encode_flag_val (FlagDef.max flagdef) in
    let args := [low; high] in
    let args :=
      if is_not_none val then
        let initial := encode_flag_val val in
        (args ++ [initial])%list
      else args in
    Returns (VStr (func_name ++ "[" ++ String.concat ":" args ++ "]"))
  else Raises AssertionError.

Definition encode_flag_for_optimizer (val : PyVal) (flagdef : FlagDef.t)
  : result PyVal :=
  if truthy_choices (FlagDef.choices flagdef) then
    Returns (VList (map FlagChoice.value (iter_choices (FlagDef.choices flagdef))))
  else if is_not_none (FlagDef.min flagdef) && is_not_none (FlagDef.max flagdef) then
    _encode_function flagdef val
  else Returns val.

End FlagEncoders.

(** ** Numeric order of bounds *)

(** The encoder never compares its bounds; the order below is Python's [<]
    on numbers, used only to say that two bounds are out of order.  A finite
    number is [m * 2^e]. *)
Inductive number : Type :=
| NaN
| Inf (negative : bool)
| Fin (m e : Z).

Definition number_of (v : PyVal) : option number :=
  match v with
  | VBool b => Some (Fin (if b then 1 else 0) 0)
  | VInt z => Some (Fin z 0)
  | VFloat f =>
      Some match Prim2SF f with
           | S754_zero _ => Fin 0 0
           | S754_infinity s => Inf s
           | S754_nan => NaN
           | S754_finite s m e => Fin (if s then Z.neg m else Z.pos m) e
           end
  | _ => None
  end.

Definition number_ltb (a b : number) : bool :=
  match a, b with
  | NaN, _ | _, NaN => false
  | Inf true, Inf true => false
  | Inf true, _ => true
  | _, Inf true => false
  | Inf false, _ => false
  | _, Inf false => true
  | Fin m1 e1, Fin m2 e2 =>
      let e := Z.min e1 e2 in
      (m1 * 2 ^ (e1 - e) <? m2 * 2 ^ (e2 - e))%Z
  end.

(** [a > b] on numeric values. *)
Definition py_gt (a b : PyVal) : bool :=
  match number_of a, number_of b with
  | Some x, Some y => number_ltb y x
  | _, _ => false
  end.

(** ** The object store *)

(** Dictionaries and lists are objects with identity; [opdef.update(...)]
    changes one in place.  A heap value is a scalar or a reference, and the
    store is the sequence of objects allocated so far, an object's address
    being its position. *)
Definition loc : Type := nat.

Inductive HVal : Type :=
| HNone
| HBool (b : bool)
| HInt (z : Z)
| HFloat (f : float)
| HStr (s : string)
| HRef (l : loc).

Inductive Obj : Type :=
| ODict (items : Dict.t HVal)
| OList (items : list HVal).

Definition heap : Type := list Obj.

(** A computation reads and changes the store and returns or raises; the
    store survives an exception. *)
Definition M (A : Type) : Type := heap -> result A * heap.

Definition ret {A : Type} (a : A) : M A := fun h => (Returns a, h).

Definition raise {A : Type} (e : exn) : M A := fun h => (Raises e, h).

Definition bind {A B : Type} (m : M A) (k : A -> M B) : M B :=
  fun h =>
    match m h with
    | (Returns a, h') => k a h'
    | (Raises e, h') => (Raises e, h')
    end.

Notation "x <- m ;; k" := (bind m (fun x => k))
  (at level 61, m at next level, right associativity).

(** A new object, at a fresh address. *)
Definition alloc (o : Obj) : M HVal :=
  fun h => (Returns (HRef (length h)), (h ++ [o])%list).

Definition deref (l : loc) : M Obj :=
  fun h =>
    match nth_error h l with
    | Some o => (Returns o, h)
    | None => (Raises SystemError, h)
    end.

Fixpoint replace_nth {A : Type} (n : nat) (x : A) (l : list A) : list A :=
  match l, n with
  | [], _ => []
  | _ :: rest, O => x :: rest
  | y :: rest, S n' => y :: replace_nth n' x rest
  end.

(** The object at [l] becomes [o], in place. *)
Definition assign (l : loc) (o : Obj) : M unit :=
  fun h =>
    match nth_error h l with
    | Some _ => (Returns tt, replace_nth l o h)
    | None => (Raises SystemError, h)
    end.

(** [[f(x) for x in l]], left to right. *)
Definition for_each {A B : Type} (f : A -> M B) : list A -> M (list B) :=
  fix each (l : list A) : M (list B) :=
    match l with
    | [] => ret []
    | x :: rest => y <- f x ;; ys <- each rest ;; ret (y :: ys)
    end.

(** The objects [yaml.safe_load] constructs for a parsed document: one new
    dictionary per mapping and one new list per sequence, children first. *)
Fixpoint construct (node : PyVal) : M HVal :=
  match node with
  | VNone => ret HNone
  | VBool b => ret (HBool b)
  | VInt z => ret (HInt z)
  | VFloat f => ret (HFloat f)
  | VStr s => ret (HStr s)
  | VList items =>
      vs <- for_each construct items ;;
      alloc (OList vs)
  | VDict items =>
      kvs <- for_each (fun kv => v <- construct (snd kv) ;; ret (fst kv, v)) items ;;
      alloc (ODict kvs)
  end.

Fixpoint mapM {A B : Type} (f : A -> option B) (l : list A) : option (list B) :=
  match l with
  | [] => Some []
  | x :: rest =>
      match f x, mapM f rest with
      | Some y, Some ys => Some (y :: ys)
      | _, _ => None
      end
  end.

(** The value a heap value stands for, read through the store to depth
    [fuel]. *)
Fixpoint read_back (fuel : nat) (h : heap) (v : HVal) : option PyVal :=
  match v with
  | HNone => Some VNone
  | HBool b => Some (VBool b)
  | HInt z => Some (VInt z)
  | HFloat f => Some (VFloat f)
  | HStr s => Some (VStr s)
  | HRef l =>
      match fuel with
      | O => None
      | S fuel' =>
          match nth_error h l with
          | Some (OList items) =>
              option_map VList (mapM (read_back fuel' h) items)
          | Some (ODict items) =>
              option_map VDict
                (mapM (fun kv =>
                         option_map (pair (fst kv)) (read_back fuel' h (snd kv)))
                      items)
          | None => None
          end
      end
  end.

(** ** The operation catalog *)

Definition nl : string := String "010"%char EmptyString.

Definition prev_trials_flag : PyVal :=
  VDict
    [("description", VStr "Method used to select previous trials for suggestions");
     ("default", VStr "batch");
     ("choices",
       VList
         [VDict [("value", VStr "batch");
                 ("description", VStr "Use trials generated by the batch run")];
          VDict [("value", VStr "sourcecode");
                 ("description", VStr "Use trials with the same source code")];
          VDict [("value", VStr "operation");
                 ("description", VStr "Use trials with the same operation name")]])].

Definition random_starts_flag : PyVal :=
  VDict
    [("description", VStr "Number of trials using random values before optimizing");
     ("default", VInt 3);
     ("type", VStr "int")].

Definition kappa_flag : PyVal :=
  VDict
    [("description",
       VStr "Degree to which variance in the predicted values is taken into account");
     ("default", VFloat 1.96);
     ("type", VStr "float")].

Definition xi_flag : PyVal :=
  VDict
    [("description", VStr "Improvement to seek over the previous best values");
     ("default", VFloat 0.05);
     ("type", VStr "float")].

Definition acq_func_flag : PyVal :=
  VDict
    [("description", VStr "Function to minimize over the gaussian prior");
     ("default", VStr "gp_hedge");
     ("choices",
       VList
         [VDict [("value", VStr "LCB");
                 ("description", VStr "Lower confidence bound")];
          VDict [("value", VStr "EI");
                 ("description", VStr "Negative expected improvement")];
          VDict [("value", VStr "PI");
                 ("description", VStr "Negative probability of improvement")];
          VDict [("value", VStr "gp_hedge");
                 ("description",
                   VStr "Probabilistically use LCB, EI, or PI at every iteration")];
          VDict [("value", VStr "EIps");
                 ("description", VStr "Negative expected improvement per second")];
          VDict [("value", VStr "PIps");
                 ("description",
                   VStr "Negative probability of improvement per second")]])].

Definition noise_flag : PyVal :=
  VDict
    [("description",
       VStr ("Level of noise associated with the objective" ++ nl ++
             "Use 'gaussian' if the objective returns noisy observations, " ++
             "otherwise specify the expected variance of the noise."));
     ("default", VStr "gaussian")].

(** What [yaml.safe_load] parses from the declaration text of
    [_skopt_opdefs]: plain scalars folded (a line break is a space, an empty
    line a line break), [yes] a boolean, [3] an integer, [1.96] a float. *)
Definition skopt_declaration : Dict.t PyVal :=
    [("random",
       VDict
         [("description",
            VStr "Batch processor supporting random flag value generation.");
          ("exec", VStr "${python_exe} -um guild.plugins.random_main");
          ("delete-on-success", VBool true);
          ("can-stage-trials", VBool true)]);
     ("gp",
       VDict
         [("description",
            VStr ("Bayesian optimizer using Gaussian processes." ++ nl ++
                  "Refer to https://scikit-optimize.github.io/#skopt.gp_minimize " ++
                  "for details on this algorithm and its flags."));
          ("exec", VStr "${python_exe} -um guild.plugins.skopt_gp_main");
          ("flags",
            VDict
              [("random-starts", random_starts_flag);
               ("acq-func", acq_func_flag);
               ("kappa", kappa_flag);
               ("xi", xi_flag);
               ("noise", noise_flag);
               ("prev-trials", prev_trials_flag)])]);
     ("forest",
       VDict
         [("description",
            VStr ("Sequential optimization using decision trees." ++ nl ++
                  "Refer to https://scikit-optimize.github.io/#skopt.forest_minimize " ++
                  "for details on this algorithm and its flags."));
          ("exec", VStr "${python_exe} -um guild.plugins.skopt_forest_main");
          ("flags",
            VDict
              [("random-starts", random_starts_flag);
               ("kappa", kappa_flag);
               ("xi", xi_flag);
               ("prev-trials", prev_trials_flag)])]);
     ("gbrt",
       VDict
         [("description",
            VStr ("Sequential optimization using gradient boosted regression trees." ++ nl ++
                  "Refer to https://scikit-optimize.github.io/#skopt.gbrt_minimize " ++
                  "for details on this algorithm and its flags."));
          ("exec", VStr "${python_exe} -um guild.plugins.skopt_gbrt_main");
          ("flags",
            VDict
              [("random-starts", random_starts_flag);
               ("kappa", kappa_flag);
               ("xi", xi_flag);
               ("prev-trials", prev_trials_flag)])])].

Definition skopt_document : PyVal := VDict skopt_declaration.

(** The items of a dictionary object; anything else has no [values] and no
    [update]. *)
Definition dict_items (v : HVal) : M (Dict.t HVal) :=
  match v with
  | HRef l =>
      o <- deref l ;;
      match o with
      | ODict items => ret items
      | OList _ => raise AttributeError
      end
  | _ => raise AttributeError
  end.

Definition dict_assign (v : HVal) (items : Dict.t HVal) : M unit :=
  match v with
  | HRef l => assign l (ODict items)
  | _ => raise AttributeError
  end.

(** [opdef.update({name: defaults[name] for name in defaults if name not in opdef})] *)
Definition update_missing (defaults opdef : HVal) : M unit :=
  items <- dict_items opdef ;;
  d <- dict_items defaults ;;
  let missing := filter (fun kv => negb (Dict.contains items (fst kv))) d in
  dict_assign opdef (Dict.update items missing).

(** [for opdef in opdefs.values(): body].  The view is live: each step
    first checks that [opdefs] still has the size it had when the loop
    began.  [values] is what is left to visit. *)
Fixpoint for_values (opdefs : HVal) (size : nat) (values : list HVal)
    (body : HVal -> M unit) : M unit :=
  items <- dict_items opdefs ;;
  if Nat.eqb (length items) size then
    match values with
    | [] => ret tt
    | opdef :: rest => _ <- body opdef ;; for_values opdefs size rest body
    end
  else raise RuntimeError.

Definition env_default : Dict.t HVal := [("NO_OP_INTERRUPTED_MSG", HStr "1")].

Definition opdef_defaults (env : HVal) : Dict.t HVal :=
  [("flag-encoder", HStr "guild.plugins.skopt:encode_flag_for_optimizer");
   ("default-max-trials", HInt 20);
   ("delete-on-success", HBool false);
   ("can-stage-trials", HBool false);
   ("env", env)].

Definition _apply_opdef_defaults (opdefs : HVal) : M unit :=
  env <- alloc (ODict env_default) ;;
  defaults <- alloc (ODict (opdef_defaults env)) ;;
  items <- dict_items opdefs ;;
  for_values opdefs (length items) (Dict.values items) (update_missing defaults).

Definition _skopt_opdefs : M HVal :=
  opdefs <- construct skopt_document ;;
  _ <- _apply_opdef_defaults opdefs ;;
  ret opdefs.

(** ** Plugin *)

(** [x in (a, b, ...)] on strings *)
Definition str_in (x : string) (xs : list string) : bool :=
  existsb (String.eqb x) xs.

Section Plugin.

(** What the host supplies: [modellib.ModelRef], [guild.__version__] and
    [model_proxy.modeldef]. *)
Variable ModelRef : Type.
Variable modellib_ModelRef : string -> string -> string -> string -> ModelRef.
Variable guild_version : string.
Variable ModelDef : Type.
Variable model_proxy_modeldef : string -> HVal -> string -> M ModelDef.

Record SkoptModelProxy : Type := {
  name : string;
  reference : ModelRef;
  modeldef : ModelDef
}.

(** [SkoptModelProxy()] *)
Definition SkoptModelProxy_init : M SkoptModelProxy :=
  let self_name := "skopt" in
  let self_reference :=
    modellib_ModelRef "builtin" "guildai" guild_version self_name in
  operations <- _skopt_opdefs ;;
  data <- alloc (ODict [("operations", operations)]) ;;
  self_modeldef <-
    model_proxy_modeldef self_name data ("<" ++ "SkoptModelProxy" ++ ">") ;;
  ret {| name := self_name;
         reference := self_reference;
         modeldef := self_modeldef |}.

Definition resolve_model_op (opspec : string)
  : M (option (SkoptModelProxy * string)) :=
  if str_in opspec ["random"; "skopt:random"] then
    proxy <- SkoptModelProxy_init ;; ret (Some (proxy, "random"))
  else if str_in opspec ["gp"; "skopt:gp"; "bayesian"; "gaussian"] then
    proxy <- SkoptModelProxy_init ;; ret (Some (proxy, "gp"))
  else if str_in opspec ["forest"; "skopt:forest"] then
    proxy <- SkoptModelProxy_init ;; ret (Some (proxy, "forest"))
  else if str_in opspec ["gbrt"; "skopt:gbrt"] then
    proxy <- SkoptModelProxy_init ;; ret (Some (proxy, "gbrt"))
  else ret None.

End Plugin.

Arguments name {ModelRef ModelDef} _.
Arguments reference {ModelRef ModelDef} _.
Arguments modeldef {ModelRef ModelDef} _.

(** ** Default filling on values *)

(** The spec's words for the build step (4.1): every operation definition
    gets each behavioral default it does not declare, from the fixed table;
    what it declares stays. *)
Definition default_table : Dict.t PyVal :=
  [("flag-encoder", VStr "guild.plugins.skopt:encode_flag_for_optimizer");
   ("default-max-trials", VInt 20);
   ("delete-on-success", VBool false);
   ("can-stage-trials", VBool false);
   ("env", VDict [("NO_OP_INTERRUPTED_MSG", VStr "1")])].

Definition missing_defaults (declared : Dict.t PyVal) : Dict.t PyVal :=
  filter (fun kv => negb (Dict.contains declared (fst kv))) default_table.

Definition with_defaults (opdef : PyVal) : PyVal :=
  match opdef with
  | VDict declared => VDict (declared ++ missing_defaults declared)%list
  | other => other
  end.

Definition filled_catalog (document : PyVal) : PyVal :=
  match document with
  | VDict opdefs => VDict (Dict.map_values with_defaults opdefs)
  | other => other
  end.

(** ** Moving a store segment *)

(** The objects a computation allocates on top of a store [h0] are those it
    allocates on the empty store, with every address moved up by the size
    of [h0]. *)
Definition relocate_val (n : nat) (v : HVal) : HVal :=
  match v with
  | HRef l => HRef (n + l)
  | _ => v
  end.

Definition relocate (n : nat) (o : Obj) : Obj :=
  match o with
  | ODict items => ODict (Dict.map_values (relocate_val n) items)
  | OList items => OList (map (relocate_val n) items)
  end.

Definition map_result {A B : Type} (f : A -> B) (r : result A) : result B :=
  match r with
  | Returns a => Returns (f a)
  | Raises e => Raises e
  end.

(** [segment] placed on top of [h0]. *)
Definition on_top (h0 segment : heap) : heap :=
  (h0 ++ map (relocate (length h0)) segment)%list.

(** [c'] run on top of [h0] does what [c] does on the segment alone. *)
Definition simulates {A : Type} (h0 : heap) (move : A -> A) (c c' : M A) : Prop :=
  forall segment,
    c' (on_top h0 segment)
      = (map_result move (fst (c segment)), on_top h0 (snd (c segment))).

(** Every dictionary of [h] is still a dictionary in [h'] and binds each of
    its keys to the same value. *)
Definition dicts_kept (h h' : heap) : Prop :=
  forall l d, nth_error h l = Some (ODict d) ->
    exists d', nth_error h' l = Some (ODict d') /\
      forall k v, Dict.get d k = Some v -> Dict.get d' k = Some v.

(** The operation specs the resolver knows. *)
Definition recognized_aliases : list string :=
  ["random"; "skopt:random";
   "gp"; "skopt:gp"; "bayesian"; "gaussian";
   "forest"; "skopt:forest";
   "gbrt"; "skopt:gbrt"].

(** ** Instances for the examples *)

Definition example_modeldef (model_name : string) (data : HVal) (src : string)
  : M (string * HVal * string) :=
  ret (model_name, data, src).

Definition example_ModelRef (a b c d : string) : list string := [a; b; c; d].

(** An encoder to run the examples with: decimal integers, strings as they
    are, and the three floats the examples use. *)
Definition example_encode_flag_val (v : PyVal) : string :=
  match v with
  | VNone => "null"
  | VBool true => "yes"
  | VBool false => "no"
  | VInt z => NilZero.string_of_int (Z.to_int z)
  | VFloat f =>
      if PrimFloat.eqb f 0 then "0.0"
      else if PrimFloat.eqb f 1 then "1.0"
      else if PrimFloat.eqb f 0.3 then "0.3"
      else "float"
  | VStr s => s
  | VList _ => "list"
  | VDict _ => "dict"
  end.

Definition unit_interval_flag : FlagDef.t :=
  FlagDef.mk None (VFloat 0) (VFloat 1) None.

Definition acq_func_choices : list FlagChoice.t :=
  [FlagChoice.mk (VStr "LCB") (Some "Lower confidence bound");
   FlagChoice.mk (VStr "EI") (Some "Negative expected improvement");
   FlagChoice.mk (VStr "gp_hedge") None].

(** ** Notions for the further properties *)

(** [c] occurs in [s]. *)
Fixpoint occurs (c : ascii) (s : string) : bool :=
  match s with
  | EmptyString => false
  | String c' rest => Ascii.eqb c c' || occurs c rest
  end.

(** The items of an operation definition once its missing defaults are
    added: the declared items, in place, then the defaults it lacks, in the
    order of the table. *)
Definition filled_items (env : HVal) (declared : Dict.t HVal) : Dict.t HVal :=
  (declared ++
   filter (fun kv => negb (Dict.contains declared (fst kv))) (opdef_defaults env))%list.

(** An operation definition of the store [h] as [_apply_opdef_defaults]
    expects it: a reference to a dictionary other than the catalog [o]. *)
Definition is_opdef (h : heap) (o : loc) (v : HVal) : Prop :=
  exists l d, v = HRef l /\ nth_error h l = Some (ODict d) /\ l <> o.

(** A value with no [update]: a scalar, or a reference to a list. *)
Definition not_a_dict (h : heap) (v : HVal) : Prop :=
  match v with
  | HRef l => exists items, nth_error h l = Some (OList items)
  | _ => True
  end.

(** The store [H] in the course of [_apply_opdef_defaults] on the catalog
    at [o] of the store [h], after the loop has visited [done]: the two
    dictionaries of the defaults sit above [h], the catalog is as it was,
    a visited definition is filled, an object not visited is as it was. *)
Definition filling (h : heap) (o : loc) (items : Dict.t HVal)
    (done : list HVal) (H : heap) : Prop :=
  length H = length h + 2
  /\ nth_error H (length h) = Some (ODict env_default)
  /\ nth_error H (length h + 1)
       = Some (ODict (opdef_defaults (HRef (length h))))
  /\ nth_error H o = Some (ODict items)
  /\ (forall l d, In (HRef l) done -> nth_error h l = Some (ODict d) ->
        nth_error H l = Some (ODict (filled_items (HRef (length h)) d)))
  /\ (forall l, l < length h -> ~ In (HRef l) done ->
        nth_error H l = nth_error h l)
  /\ (forall l d, nth_error h l = Some (ODict d) ->
        nth_error H l = Some (ODict d)
        \/ nth_error H l = Some (ODict (filled_items (HRef (length h)) d)))
  /\ (forall l xs, nth_error h l = Some (OList xs) ->
        nth_error H l = Some (OList xs)).

(** * Properties of the flag encoder *)

Section FlagEncoderFacts.

Variable encode_flag_val : PyVal -> string.

Lemma append_assoc (a b c : string) : (a ++ b) ++ c = a ++ b ++ c.
Proof. induction a as [|ch a IH]; simpl; [reflexivity | now rewrite IH]. Qed.

Lemma is_not_none_true (v : PyVal) : v <> VNone -> is_not_none v = true.
Proof. destruct v; simpl; congruence. Qed.

Lemma str_or_nonempty (d default : string) :
  d <> EmptyString -> str_or (Some d) default = d.
Proof. destruct d; simpl; congruence. Qed.

(** With both bounds present, the descriptor step returns the function name,
    the two bounds and, for a value that is not [None], the value. *)
Lemma _encode_function_bounds (flagdef : FlagDef.t) (val : PyVal) :
  FlagDef.min flagdef <> VNone ->
  FlagDef.max flagdef <> VNone ->
  _encode_function encode_flag_val flagdef val =
    Returns
      (VStr
         (str_or (FlagDef.distribution flagdef) "uniform" ++ "[" ++
          String.concat ":"
            (encode_flag_val (FlagDef.min flagdef)
             :: encode_flag_val (FlagDef.max flagdef)
             :: (if is_not_none val then [encode_flag_val val] else [])) ++
          "]")).
Proof.
  intros Hmin Hmax. unfold _encode_function.
  rewrite (is_not_none_true _ Hmin), (is_not_none_true _ Hmax). simpl.
  destruct (is_not_none val); reflexivity.
Qed.

Lemma encode_bounds (flagdef : FlagDef.t) (val : PyVal) :
  truthy_choices (FlagDef.choices flagdef) = false ->
  FlagDef.min flagdef <> VNone ->
  FlagDef.max flagdef <> VNone ->
  encode_flag_for_optimizer encode_flag_val val flagdef
    = _encode_function encode_flag_val flagdef val.
Proof.
  intros Hc Hmin Hmax. unfold encode_flag_for_optimizer.
  rewrite Hc, (is_not_none_true _ Hmin), (is_not_none_true _ Hmax).
  reflexivity.
Qed.

Lemma encode_without_both_bounds (flagdef : FlagDef.t) (val : PyVal) :
  truthy_choices (FlagDef.choices flagdef) = false ->
  FlagDef.min flagdef = VNone \/ FlagDef.max flagdef = VNone ->
  encode_flag_for_optimizer encode_flag_val val flagdef = Returns val.
Proof.
  intros Hc Hb. unfold encode_flag_for_optimizer. rewrite Hc.
  destruct Hb as [-> | ->]; simpl.
  - reflexivity.
  - now rewrite andb_false_r.
Qed.

End FlagEncoderFacts.

(** C1.  For a flag definition with both [min] and [max] set and no choices,
    [encode_flag_for_optimizer] returns the string made of the distribution
    name ("uniform" when the distribution is unset), then "[low:high]" with
    the encodings of [min] and [max], and with a third segment, the encoding
    of the value, exactly when the value is not [None]. *)
Theorem encode_bounds_descriptor
    (encode_flag_val : PyVal -> string) (flagdef : FlagDef.t) (val : PyVal) :
  truthy_choices (FlagDef.choices flagdef) = false ->
  FlagDef.min flagdef <> VNone ->
  FlagDef.max flagdef <> VNone ->
  let func_name := str_or (FlagDef.distribution flagdef) "uniform" in
  let low := encode_flag_val (FlagDef.min flagdef) in
  let high := encode_flag_val (FlagDef.max flagdef) in
  (FlagDef.distribution flagdef = None -> func_name = "uniform") /\
  (forall d, FlagDef.distribution flagdef = Some d -> d <> EmptyString ->
             func_name = d) /\
  (val = VNone ->
   encode_flag_for_optimizer encode_flag_val val flagdef =
     Returns (VStr (func_name ++ "[" ++ low ++ ":" ++ high ++ "]"))) /\
  (val <> VNone ->
   encode_flag_for_optimizer encode_flag_val val flagdef =
     Returns (VStr (func_name ++ "[" ++ low ++ ":" ++ high ++ ":" ++
                    encode_flag_val val ++ "]"))).
Proof.
  intros Hc Hmin Hmax func_name low high.
  repeat split.
  - intros Hd. unfold func_name. rewrite Hd. reflexivity.
  - intros d Hd Hne. unfold func_name. rewrite Hd. now apply str_or_nonempty.
  - intros ->. rewrite encode_bounds, _encode_function_bounds by assumption.
    simpl. rewrite !append_assoc. reflexivity.
  - intros Hval. rewrite encode_bounds, _encode_function_bounds by assumption.
    rewrite (is_not_none_true _ Hval). simpl.
    repeat (rewrite append_assoc; simpl). reflexivity.
Qed.

(** [min=0.0], [max=1.0], no distribution, value [0.3]. *)
Lemma encode_bounds_descriptor_example :
  encode_flag_for_optimizer example_encode_flag_val (VFloat 0.3) unit_interval_flag
    = Returns (VStr "uniform[0.0:1.0:0.3]")
  /\ encode_flag_for_optimizer example_encode_flag_val VNone unit_interval_flag
    = Returns (VStr "uniform[0.0:1.0]").
Proof.
  split.
  - apply (encode_bounds_descriptor example_encode_flag_val unit_interval_flag
             (VFloat 0.3)); [reflexivity | discriminate | discriminate | discriminate].
  - apply (encode_bounds_descriptor example_encode_flag_val unit_interval_flag
             VNone); [reflexivity | discriminate | discriminate | reflexivity].
Defined.

(** C2.  For a flag definition with a non-empty choices sequence,
    [encode_flag_for_optimizer] returns the list of the choices' values, in
    order, whatever the value argument and whatever [min] and [max] hold. *)
Theorem encode_choices_values
    (encode_flag_val : PyVal -> string) (flagdef : FlagDef.t) (val : PyVal)
    (c : FlagChoice.t) (cs : list FlagChoice.t) :
  FlagDef.choices flagdef = Some (c :: cs) ->
  encode_flag_for_optimizer encode_flag_val val flagdef
    = Returns (VList (map FlagChoice.value (c :: cs))).
Proof.
  intros Hc. unfold encode_flag_for_optimizer. rewrite Hc. reflexivity.
Qed.

(** Three choices, with bounds also present and with and without a value. *)
Lemma encode_choices_values_example :
  encode_flag_for_optimizer example_encode_flag_val (VInt 7)
    (FlagDef.mk (Some acq_func_choices) (VInt 0) (VInt 1) (Some "uniform"))
    = Returns (VList [VStr "LCB"; VStr "EI"; VStr "gp_hedge"])
  /\ encode_flag_for_optimizer example_encode_flag_val VNone
    (FlagDef.mk (Some acq_func_choices) VNone VNone None)
    = Returns (VList [VStr "LCB"; VStr "EI"; VStr "gp_hedge"]).
Proof.
  split.
  - apply (encode_choices_values example_encode_flag_val
             (FlagDef.mk (Some acq_func_choices) (VInt 0) (VInt 1) (Some "uniform"))
             (VInt 7) (hd (FlagChoice.mk VNone None) acq_func_choices)
             (tl acq_func_choices)).
    reflexivity.
  - apply (encode_choices_values example_encode_flag_val
             (FlagDef.mk (Some acq_func_choices) VNone VNone None)
             VNone (hd (FlagChoice.mk VNone None) acq_func_choices)
             (tl acq_func_choices)).
    reflexivity.
Defined.

(** C3.  For a flag definition with no choices and without both bounds, the
    value comes back unchanged. *)
Theorem encode_pass_through
    (encode_flag_val : PyVal -> string) (flagdef : FlagDef.t) (v : PyVal) :
  truthy_choices (FlagDef.choices flagdef) = false ->
  FlagDef.min flagdef = VNone \/ FlagDef.max flagdef = VNone ->
  encode_flag_for_optimizer encode_flag_val v flagdef = Returns v.
Proof.
  intros Hc Hb. now apply encode_without_both_bounds.
Qed.

(** A flag with nothing but a default: no bounds, no choices. *)
Lemma encode_pass_through_example :
  encode_flag_for_optimizer example_encode_flag_val (VInt 3)
    (FlagDef.mk None VNone VNone None) = Returns (VInt 3)
  /\ encode_flag_for_optimizer example_encode_flag_val (VStr "gaussian")
    (FlagDef.mk (Some []) VNone VNone (Some "uniform")) = Returns (VStr "gaussian").
Proof.
  split.
  - apply (encode_pass_through example_encode_flag_val
             (FlagDef.mk None VNone VNone None) (VInt 3));
      [reflexivity | left; reflexivity].
  - apply (encode_pass_through example_encode_flag_val
             (FlagDef.mk (Some []) VNone VNone (Some "uniform")) (VStr "gaussian"));
      [reflexivity | right; reflexivity].
Defined.

(** C4, as stated, fails: with [min=0] and no [max], the encoder returns the
    value [3]; nothing is raised. *)
Lemma encode_one_bound_returns :
  truthy_choices (FlagDef.choices (FlagDef.mk None (VInt 0) VNone None)) = false
  /\ FlagDef.min (FlagDef.mk None (VInt 0) VNone None) <> VNone
  /\ FlagDef.max (FlagDef.mk None (VInt 0) VNone None) = VNone
  /\ encode_flag_for_optimizer example_encode_flag_val (VInt 3)
       (FlagDef.mk None (VInt 0) VNone None) = Returns (VInt 3)
  /\ (forall e, encode_flag_for_optimizer example_encode_flag_val (VInt 3)
                  (FlagDef.mk None (VInt 0) VNone None) <> Raises e).
Proof.
  repeat split; try discriminate.
Qed.

(** C4, amended.  For a flag definition with no choices and exactly one of
    [min] and [max] present, [encode_flag_for_optimizer] returns the value
    unchanged; the assertion fails only when the descriptor step
    [_encode_function] is itself called on such a definition. *)
Theorem encode_one_bound_passes_through
    (encode_flag_val : PyVal -> string) (flagdef : FlagDef.t) (val : PyVal) :
  truthy_choices (FlagDef.choices flagdef) = false ->
  (FlagDef.min flagdef = VNone /\ FlagDef.max flagdef <> VNone) \/
  (FlagDef.min flagdef <> VNone /\ FlagDef.max flagdef = VNone) ->
  encode_flag_for_optimizer encode_flag_val val flagdef = Returns val
  /\ _encode_function encode_flag_val flagdef val = Raises AssertionError.
Proof.
  intros Hc Hb. split.
  - apply encode_without_both_bounds; [assumption | tauto].
  - unfold _encode_function.
    destruct Hb as [[-> _] | [_ ->]]; simpl.
    + reflexivity.
    + now rewrite andb_false_r.
Qed.

Lemma encode_one_bound_passes_through_example :
  encode_flag_for_optimizer example_encode_flag_val (VInt 3)
    (FlagDef.mk None (VInt 0) VNone None) = Returns (VInt 3)
  /\ _encode_function example_encode_flag_val
       (FlagDef.mk None (VInt 0) VNone None) (VInt 3) = Raises AssertionError.
Proof.
  apply (encode_one_bound_passes_through example_encode_flag_val
           (FlagDef.mk None (VInt 0) VNone None) (VInt 3)).
  - reflexivity.
  - right. split; [discriminate | reflexivity].
Defined.

(** C5.  The encoder does not check that [min <= max]: with both bounds
    present, no choices and [min > max], it still returns the descriptor,
    [min]'s encoding in the low position and [max]'s in the high one. *)
Theorem encode_bounds_out_of_order
    (encode_flag_val : PyVal -> string) (flagdef : FlagDef.t) (val : PyVal) :
  truthy_choices (FlagDef.choices flagdef) = false ->
  FlagDef.min flagdef <> VNone ->
  FlagDef.max flagdef <> VNone ->
  py_gt (FlagDef.min flagdef) (FlagDef.max flagdef) = true ->
  exists initial : list string,
    encode_flag_for_optimizer encode_flag_val val flagdef
      = Returns
          (VStr (str_or (FlagDef.distribution flagdef) "uniform" ++ "[" ++
                 String.concat ":"
                   (encode_flag_val (FlagDef.min flagdef)
                    :: encode_flag_val (FlagDef.max flagdef) :: initial) ++
                 "]"))
    /\ (val = VNone -> initial = [])
    /\ (val <> VNone -> initial = [encode_flag_val val]).
Proof.
  intros Hc Hmin Hmax _.
  exists (if is_not_none val then [encode_flag_val val] else []).
  rewrite encode_bounds, _encode_function_bounds by assumption.
  repeat split.
  - now intros ->.
  - intros Hval. now rewrite (is_not_none_true _ Hval).
Qed.

(** [min=5], [max=1]; and a float above an integer. *)
Lemma encode_bounds_out_of_order_example :
  (exists initial : list string,
     encode_flag_for_optimizer example_encode_flag_val VNone
       (FlagDef.mk None (VInt 5) (VInt 1) None)
       = Returns (VStr ("uniform" ++ "[" ++
                        String.concat ":" ("5" :: "1" :: initial) ++ "]"))
     /\ (VNone = VNone -> initial = [])
     /\ (VNone <> VNone -> initial = [example_encode_flag_val VNone]))
  /\ py_gt (VFloat 0.3) (VInt 0) = true
  /\ py_gt (VInt 0) (VFloat 0.3) = false.
Proof.
  split; [| split; reflexivity].
  apply (encode_bounds_out_of_order example_encode_flag_val
           (FlagDef.mk None (VInt 5) (VInt 1) None) VNone);
    [reflexivity | discriminate | discriminate | reflexivity].
Defined.

(** C10.  [None] is the only value that counts as absent: with both bounds
    present and no choices, a value that is not [None] gives the third
    segment, also [0], [0.0], [False] and the empty string, and [None]
    gives the two-segment form; and an empty distribution name falls back
    to "uniform" as an absent one does. *)
Theorem encode_none_is_the_only_absent_value
    (encode_flag_val : PyVal -> string) (flagdef : FlagDef.t) :
  truthy_choices (FlagDef.choices flagdef) = false ->
  FlagDef.min flagdef <> VNone ->
  FlagDef.max flagdef <> VNone ->
  let descriptor (args : list string) : result PyVal :=
    Returns (VStr (str_or (FlagDef.distribution flagdef) "uniform" ++ "[" ++
                   String.concat ":" args ++ "]")) in
  let low := encode_flag_val (FlagDef.min flagdef) in
  let high := encode_flag_val (FlagDef.max flagdef) in
  (forall val, val <> VNone ->
     encode_flag_for_optimizer encode_flag_val val flagdef
       = descriptor [low; high; encode_flag_val val]) /\
  encode_flag_for_optimizer encode_flag_val VNone flagdef
    = descriptor [low; high] /\
  encode_flag_for_optimizer encode_flag_val (VInt 0) flagdef
    = descriptor [low; high; encode_flag_val (VInt 0)] /\
  encode_flag_for_optimizer encode_flag_val (VFloat 0) flagdef
    = descriptor [low; high; encode_flag_val (VFloat 0)] /\
  encode_flag_for_optimizer encode_flag_val (VBool false) flagdef
    = descriptor [low; high; encode_flag_val (VBool false)] /\
  encode_flag_for_optimizer encode_flag_val (VStr EmptyString) flagdef
    = descriptor [low; high; encode_flag_val (VStr EmptyString)] /\
  (FlagDef.distribution flagdef = Some EmptyString \/
   FlagDef.distribution flagdef = None ->
   forall args,
     descriptor args
       = Returns (VStr ("uniform" ++ "[" ++ String.concat ":" args ++ "]"))).
Proof.
  intros Hc Hmin Hmax descriptor low high.
  assert (Hsome : forall val, val <> VNone ->
            encode_flag_for_optimizer encode_flag_val val flagdef
              = descriptor [low; high; encode_flag_val val]).
  { intros val Hval.
    rewrite encode_bounds, _encode_function_bounds by assumption.
    now rewrite (is_not_none_true _ Hval). }
  split; [exact Hsome |].
  split; [now rewrite encode_bounds, _encode_function_bounds by assumption |].
  repeat (split; [apply Hsome; discriminate |]).
  unfold descriptor. intros [-> | ->] args; reflexivity.
Qed.

(** The unit interval with an empty distribution name, value [0]. *)
Lemma encode_none_is_the_only_absent_value_example :
  encode_flag_for_optimizer example_encode_flag_val (VInt 0)
    (FlagDef.mk None (VFloat 0) (VFloat 1) (Some EmptyString))
    = Returns (VStr "uniform[0.0:1.0:0]")
  /\ encode_flag_for_optimizer example_encode_flag_val VNone
    (FlagDef.mk None (VFloat 0) (VFloat 1) (Some EmptyString))
    = Returns (VStr "uniform[0.0:1.0]").
Proof.
  pose proof (encode_none_is_the_only_absent_value example_encode_flag_val
                (FlagDef.mk None (VFloat 0) (VFloat 1) (Some EmptyString))
                eq_refl) as H.
  cbv zeta in H.
  destruct H as (_ & Hnone & Hzero & _); [discriminate | discriminate |].
  split; [exact Hzero | exact Hnone].
Defined.

(** * Properties of dictionaries and of the store *)

Local Open Scope list_scope.

Lemma nth_error_replace_nth_eq {A : Type} (n : nat) (x : A) (l : list A) :
  n < length l -> nth_error (replace_nth n x l) n = Some x.
Proof.
  revert n. induction l as [|y l IH]; intros [|n] Hn; simpl in *; try lia.
  - reflexivity.
  - apply IH. lia.
Qed.

Lemma nth_error_replace_nth_neq {A : Type} (n m : nat) (x : A) (l : list A) :
  n <> m -> nth_error (replace_nth n x l) m = nth_error l m.
Proof.
  revert n m. induction l as [|y l IH]; intros [|n] [|m] Hnm; simpl;
    try reflexivity; try congruence.
  apply IH. congruence.
Qed.

Lemma length_replace_nth {A : Type} (n : nat) (x : A) (l : list A) :
  length (replace_nth n x l) = length l.
Proof.
  revert n. induction l as [|y l IH]; intros [|n]; simpl; try reflexivity.
  now rewrite IH.
Qed.

Lemma replace_nth_app_r {A : Type} (n : nat) (x : A) (l1 l2 : list A) :
  replace_nth (length l1 + n) x (l1 ++ l2) = (l1 ++ replace_nth n x l2)%list.
Proof.
  induction l1 as [|y l1 IH]; simpl; [reflexivity | now rewrite IH].
Qed.

Lemma map_replace_nth {A B : Type} (f : A -> B) (n : nat) (x : A) (l : list A) :
  map f (replace_nth n x l) = replace_nth n (f x) (map f l).
Proof.
  revert n. induction l as [|y l IH]; intros [|n]; simpl; try reflexivity.
  now rewrite IH.
Qed.

Section DictFacts.

Context {V W : Type}.
Implicit Types (d other : Dict.t V) (k : string) (f : V -> W).

Lemma get_map_values f d k :
  Dict.get (Dict.map_values f d) k = option_map f (Dict.get d k).
Proof.
  induction d as [|[k' v] d IH]; simpl; [reflexivity |].
  destruct (String.eqb k k'); [reflexivity | exact IH].
Qed.

Lemma contains_map_values f d k :
  Dict.contains (Dict.map_values f d) k = Dict.contains d k.
Proof.
  unfold Dict.contains. rewrite get_map_values. now destruct (Dict.get d k).
Qed.

Lemma set_map_values f d k (v : V) :
  Dict.set (Dict.map_values f d) k (f v) = Dict.map_values f (Dict.set d k v).
Proof.
  induction d as [|[k' v'] d IH]; simpl; [reflexivity |].
  destruct (String.eqb k k'); simpl; [reflexivity | now rewrite IH].
Qed.

Lemma update_map_values f d other :
  Dict.update (Dict.map_values f d) (Dict.map_values f other)
    = Dict.map_values f (Dict.update d other).
Proof.
  unfold Dict.update. revert d.
  induction other as [|[k v] other IH]; intros d; simpl; [reflexivity |].
  now rewrite set_map_values, IH.
Qed.

Lemma filter_map_values f (p : string -> bool) d :
  filter (fun kv => p (fst kv)) (Dict.map_values f d)
    = Dict.map_values f (filter (fun kv => p (fst kv)) d).
Proof.
  induction d as [|[k v] d IH]; simpl; [reflexivity |].
  destruct (p k); simpl; now rewrite IH.
Qed.

Lemma get_set_other d k k' (v : V) :
  k <> k' -> Dict.get (Dict.set d k' v) k = Dict.get d k.
Proof.
  intros Hne. induction d as [|[k0 v0] d IH]; simpl.
  - now rewrite (proj2 (String.eqb_neq k k')).
  - destruct (String.eqb k' k0) eqn:E; simpl.
    + apply String.eqb_eq in E. subst k0.
      now rewrite (proj2 (String.eqb_neq k k')).
    + destruct (String.eqb k k0); [reflexivity | exact IH].
Qed.

Lemma get_update_other d other k :
  (forall kv, In kv other -> fst kv <> k) ->
  Dict.get (Dict.update d other) k = Dict.get d k.
Proof.
  unfold Dict.update. revert d.
  induction other as [|[k' v] other IH]; intros d Hother; simpl; [reflexivity |].
  rewrite IH by (intros kv Hin; apply Hother; now right).
  apply get_set_other. intros ->. now apply (Hother (k', v)); [left |].
Qed.

Lemma get_app d other k :
  Dict.get (d ++ other)%list k =
    match Dict.get d k with
    | Some v => Some v
    | None => Dict.get other k
    end.
Proof.
  induction d as [|[k' v] d IH]; simpl; [reflexivity |].
  destruct (String.eqb k k'); [reflexivity | exact IH].
Qed.

End DictFacts.

(** ** A computation on top of a store *)

Section Relocation.

Variable h0 : heap.

Lemma on_top_nil : on_top h0 [] = h0.
Proof. unfold on_top. simpl. apply app_nil_r. Qed.

Lemma on_top_length (segment : heap) :
  length (on_top h0 segment) = length h0 + length segment.
Proof. unfold on_top. now rewrite length_app, length_map. Qed.

Lemma on_top_nth (segment : heap) (l : loc) :
  nth_error (on_top h0 segment) (length h0 + l)
    = option_map (relocate (length h0)) (nth_error segment l).
Proof.
  unfold on_top. rewrite nth_error_app2 by lia.
  replace (length h0 + l - length h0) with l by lia.
  apply nth_error_map.
Qed.

Lemma on_top_alloc (segment : heap) (o : Obj) :
  (on_top h0 segment ++ [relocate (length h0) o])%list = on_top h0 (segment ++ [o]).
Proof. unfold on_top. now rewrite map_app, app_assoc. Qed.

Lemma on_top_replace (segment : heap) (l : loc) (o : Obj) :
  replace_nth (length h0 + l) (relocate (length h0) o) (on_top h0 segment)
    = on_top h0 (replace_nth l o segment).
Proof. unfold on_top. now rewrite replace_nth_app_r, map_replace_nth. Qed.

Lemma simulates_ret {A : Type} (move : A -> A) (a : A) :
  simulates h0 move (ret a) (ret (move a)).
Proof. intros segment. reflexivity. Qed.

Lemma simulates_raise {A : Type} (move : A -> A) (e : exn) :
  simulates h0 move (raise e) (raise e).
Proof. intros segment. reflexivity. Qed.

Lemma simulates_bind {A B : Type} (ma : A -> A) (mb : B -> B)
    (c c' : M A) (k k' : A -> M B) :
  simulates h0 ma c c' ->
  (forall a, simulates h0 mb (k a) (k' (ma a))) ->
  simulates h0 mb (x <- c ;; k x) (x <- c' ;; k' x).
Proof.
  intros Hc Hk segment. unfold bind. rewrite Hc.
  destruct (c segment) as [[a | e] segment']; simpl.
  - apply Hk.
  - reflexivity.
Qed.

Lemma simulates_alloc (o : Obj) :
  simulates h0 (relocate_val (length h0)) (alloc o) (alloc (relocate (length h0) o)).
Proof.
  intros segment. unfold alloc. simpl.
  now rewrite on_top_length, on_top_alloc.
Qed.

Lemma simulates_deref (l : loc) :
  simulates h0 (relocate (length h0)) (deref l) (deref (length h0 + l)).
Proof.
  intros segment. unfold deref. rewrite on_top_nth.
  now destruct (nth_error segment l).
Qed.

Lemma simulates_assign (l : loc) (o : Obj) :
  simulates h0 (fun u => u) (assign l o)
    (assign (length h0 + l) (relocate (length h0) o)).
Proof.
  intros segment. unfold assign. rewrite on_top_nth.
  destruct (nth_error segment l); simpl; [| reflexivity].
  now rewrite on_top_replace.
Qed.

Lemma simulates_for_each {A B : Type} (mb : B -> B) (f f' : A -> M B)
    (l : list A) :
  Forall (fun x => simulates h0 mb (f x) (f' x)) l ->
  simulates h0 (map mb) (for_each f l) (for_each f' l).
Proof.
  induction 1 as [|x l Hx _ IH]; simpl.
  - apply (simulates_ret (map mb) []).
  - apply (simulates_bind mb (map mb)); [exact Hx |].
    intros y. apply (simulates_bind (map mb) (map mb)); [exact IH |].
    intros ys. apply (simulates_ret (map mb) (y :: ys)).
Qed.

Lemma simulates_construct (node : PyVal) :
  simulates h0 (relocate_val (length h0)) (construct node) (construct node).
Proof.
  induction node as [| b | z | f | s | items IH | items IH]
    using PyVal_items_ind; simpl.
  - exact (simulates_ret (relocate_val (length h0)) HNone).
  - exact (simulates_ret (relocate_val (length h0)) (HBool b)).
  - exact (simulates_ret (relocate_val (length h0)) (HInt z)).
  - exact (simulates_ret (relocate_val (length h0)) (HFloat f)).
  - exact (simulates_ret (relocate_val (length h0)) (HStr s)).
  - eapply simulates_bind.
    + apply simulates_for_each. exact IH.
    + intros vs. apply (simulates_alloc (OList vs)).
  - eapply (simulates_bind
              (map (fun kv => (fst kv, relocate_val (length h0) (snd kv))))).
    + apply simulates_for_each.
      eapply Forall_impl; [| exact IH].
      intros [k x] Hx. simpl in *.
      eapply simulates_bind; [exact Hx |].
      intros v.
      exact (simulates_ret
               (fun kv => (fst kv, relocate_val (length h0) (snd kv))) (k, v)).
    + intros kvs. apply (simulates_alloc (ODict kvs)).
Qed.

Lemma simulates_dict_items (v : HVal) :
  simulates h0 (Dict.map_values (relocate_val (length h0)))
    (dict_items v) (dict_items (relocate_val (length h0) v)).
Proof.
  destruct v; simpl; try apply simulates_raise.
  eapply simulates_bind; [apply simulates_deref |].
  intros [items | items]; simpl.
  - apply (simulates_ret _ items).
  - apply simulates_raise.
Qed.

Lemma simulates_dict_assign (v : HVal) (items : Dict.t HVal) :
  simulates h0 (fun u => u) (dict_assign v items)
    (dict_assign (relocate_val (length h0) v)
       (Dict.map_values (relocate_val (length h0)) items)).
Proof.
  destruct v; simpl; try apply simulates_raise.
  apply (simulates_assign l (ODict items)).
Qed.

Lemma simulates_update_missing (defaults opdef : HVal) :
  simulates h0 (fun u => u) (update_missing defaults opdef)
    (update_missing (relocate_val (length h0) defaults)
       (relocate_val (length h0) opdef)).
Proof.
  unfold update_missing.
  eapply simulates_bind; [apply simulates_dict_items |].
  intros items.
  eapply simulates_bind; [apply simulates_dict_items |].
  intros d.
  cbv zeta.
  replace (filter
             (fun kv =>
                negb (Dict.contains
                        (Dict.map_values (relocate_val (length h0)) items) (fst kv)))
             (Dict.map_values (relocate_val (length h0)) d))
    with (Dict.map_values (relocate_val (length h0))
            (filter (fun kv => negb (Dict.contains items (fst kv))) d)).
  - rewrite update_map_values. apply simulates_dict_assign.
  - rewrite <- (filter_map_values _ (fun k => negb (Dict.contains items k))).
    apply filter_ext. intros kv. now rewrite contains_map_values.
Qed.

Lemma simulates_for_values (opdefs : HVal) (size : nat) (values : list HVal)
    (body body' : HVal -> M unit) :
  (forall v, simulates h0 (fun u => u) (body v)
               (body' (relocate_val (length h0) v))) ->
  simulates h0 (fun u => u) (for_values opdefs size values body)
    (for_values (relocate_val (length h0) opdefs) size
       (map (relocate_val (length h0)) values) body').
Proof.
  intros Hbody. induction values as [|v values IH]; simpl.
  - eapply simulates_bind; [apply simulates_dict_items |].
    intros items. unfold Dict.map_values. rewrite length_map.
    destruct (Nat.eqb (length items) size).
    + exact (simulates_ret (fun u => u) tt).
    + apply simulates_raise.
  - eapply simulates_bind; [apply simulates_dict_items |].
    intros items. unfold Dict.map_values. rewrite length_map.
    destruct (Nat.eqb (length items) size).
    + eapply simulates_bind; [apply Hbody |].
      intros _. exact IH.
    + apply simulates_raise.
Qed.

Lemma simulates_apply_opdef_defaults (opdefs : HVal) :
  simulates h0 (fun u => u) (_apply_opdef_defaults opdefs)
    (_apply_opdef_defaults (relocate_val (length h0) opdefs)).
Proof.
  unfold _apply_opdef_defaults.
  eapply simulates_bind; [apply (simulates_alloc (ODict env_default)) |].
  intros env.
  eapply simulates_bind; [apply (simulates_alloc (ODict (opdef_defaults env))) |].
  intros defaults.
  eapply simulates_bind; [apply simulates_dict_items |].
  intros items.
  unfold Dict.map_values at 1. rewrite length_map.
  replace (Dict.values (Dict.map_values (relocate_val (length h0)) items))
    with (map (relocate_val (length h0)) (Dict.values items)).
  - apply simulates_for_values. intros v. apply simulates_update_missing.
  - unfold Dict.values, Dict.map_values. rewrite !map_map. reflexivity.
Qed.

Lemma simulates_skopt_opdefs :
  simulates h0 (relocate_val (length h0)) _skopt_opdefs _skopt_opdefs.
Proof.
  unfold _skopt_opdefs.
  eapply simulates_bind; [apply simulates_construct |].
  intros opdefs.
  eapply simulates_bind; [apply simulates_apply_opdef_defaults |].
  intros _. exact (simulates_ret (relocate_val (length h0)) opdefs).
Qed.

End Relocation.

(** ** Reading a value back *)

Lemma mapM_map {A B : Type} (f g : A -> option B) (move : A -> A) (l : list A)
    (ys : list B) :
  (forall a b, f a = Some b -> g (move a) = Some b) ->
  mapM f l = Some ys -> mapM g (map move l) = Some ys.
Proof.
  intros Hfg. revert ys. induction l as [|a l IH]; intros ys; simpl.
  - trivial.
  - destruct (f a) as [b |] eqn:Ea; [| discriminate].
    destruct (mapM f l) as [bs |]; [| discriminate].
    intros [= <-]. now rewrite (Hfg a b Ea), (IH bs eq_refl).
Qed.

(** What a segment reads back to, it reads back to on top of any store and
    below anything allocated later. *)
Lemma read_back_on_top (h0 segment later : heap) (fuel : nat) (v : HVal)
    (x : PyVal) :
  read_back fuel segment v = Some x ->
  read_back fuel (on_top h0 segment ++ later) (relocate_val (length h0) v)
    = Some x.
Proof.
  revert v x. induction fuel as [|fuel IH]; intros v x; destruct v; simpl;
    try (intros H; exact H); try discriminate.
  destruct (nth_error segment l) as [o |] eqn:El; [| discriminate].
  assert (Hl : l < length segment) by (apply nth_error_Some; congruence).
  rewrite nth_error_app1 by (rewrite on_top_length; lia).
  rewrite on_top_nth, El. simpl.
  destruct o as [items | items]; simpl.
  - destruct (mapM _ items) as [ys |] eqn:E; [| discriminate].
    intros [= <-]. unfold Dict.map_values.
    erewrite (mapM_map _ _ (fun kv => (fst kv, relocate_val (length h0) (snd kv))));
      [reflexivity | | exact E].
    intros [k a] b. simpl.
    destruct (read_back fuel segment a) as [y |] eqn:Ea; [| discriminate].
    intros [= <-]. now rewrite (IH a y Ea).
  - destruct (mapM _ items) as [ys |] eqn:E; [| discriminate].
    intros [= <-].
    erewrite (mapM_map _ _ (relocate_val (length h0))); [reflexivity | | exact E].
    intros a b Ea. now apply IH.
Qed.

(** ** The catalog on the empty store and on any store *)

Lemma skopt_opdefs_on_empty_store :
  fst (_skopt_opdefs []) = Returns (HRef 40)
  /\ read_back 6 (snd (_skopt_opdefs [])) (HRef 40)
       = Some (filled_catalog skopt_document)
  /\ length (snd (_skopt_opdefs [])) = 43.
Proof. repeat split; vm_compute; reflexivity. Qed.

(** On any store the build returns a new dictionary, changes no object of
    the store, and what it has built reads back to the filled catalog, also
    after later allocations. *)
Lemma skopt_opdefs_run (h0 : heap) :
  exists built : heap,
    _skopt_opdefs h0 = (Returns (HRef (length h0 + 40)), h0 ++ built)
    /\ length built = 43
    /\ forall later,
         read_back 6 (h0 ++ built ++ later) (HRef (length h0 + 40))
           = Some (filled_catalog skopt_document).
Proof.
  exists (map (relocate (length h0)) (snd (_skopt_opdefs []))).
  pose proof (simulates_skopt_opdefs h0 []) as Hrun.
  rewrite on_top_nil in Hrun.
  destruct skopt_opdefs_on_empty_store as (Hroot & Hread & Hlen).
  rewrite Hroot in Hrun. split; [exact Hrun |].
  split; [now rewrite length_map |].
  intros later. rewrite app_assoc.
  exact (read_back_on_top h0 _ later 6 (HRef 40) _ Hread).
Qed.

(** ** Default filling keeps what a dictionary binds *)

Lemma dicts_kept_refl (h : heap) : dicts_kept h h.
Proof. intros l d Hl. exists d. now split. Qed.

Lemma dicts_kept_trans (h1 h2 h3 : heap) :
  dicts_kept h1 h2 -> dicts_kept h2 h3 -> dicts_kept h1 h3.
Proof.
  intros H12 H23 l d Hl.
  destruct (H12 l d Hl) as (d2 & Hl2 & Hd2).
  destruct (H23 l d2 Hl2) as (d3 & Hl3 & Hd3).
  exists d3. split; [exact Hl3 |]. intros k v Hk. apply Hd3, Hd2, Hk.
Qed.

Lemma dicts_kept_bind {A B : Type} (c : M A) (k : A -> M B) :
  (forall h, dicts_kept h (snd (c h))) ->
  (forall a h, dicts_kept h (snd (k a h))) ->
  forall h, dicts_kept h (snd ((x <- c ;; k x) h)).
Proof.
  intros Hc Hk h. unfold bind. specialize (Hc h).
  destruct (c h) as [[a | e] h1]; simpl in *.
  - eapply dicts_kept_trans; [exact Hc | apply Hk].
  - exact Hc.
Qed.

Lemma dicts_kept_alloc (o : Obj) (h : heap) : dicts_kept h (snd (alloc o h)).
Proof.
  intros l d Hl. exists d. split; [| trivial]. simpl.
  rewrite nth_error_app1; [exact Hl |]. apply nth_error_Some. congruence.
Qed.

Lemma dicts_kept_dict_items (v : HVal) (h : heap) :
  dicts_kept h (snd (dict_items v h)).
Proof.
  destruct v; simpl; try apply dicts_kept_refl.
  unfold bind, deref.
  destruct (nth_error h l) as [[items | items] |]; simpl; apply dicts_kept_refl.
Qed.

Lemma filter_absent_keys {V : Type} (items d : Dict.t V) (k : string) (v : V) :
  Dict.get items k = Some v ->
  forall kv,
    In kv (filter (fun kv => negb (Dict.contains items (fst kv))) d) ->
    fst kv <> k.
Proof.
  intros Hk kv Hin Heq. subst k. apply filter_In in Hin as [_ Habsent].
  unfold Dict.contains in Habsent. now rewrite Hk in Habsent.
Qed.

Lemma dicts_kept_dict_assign (v : HVal) (d : Dict.t HVal) (h : heap) :
  (forall items, dict_items v h = (Returns items, h) ->
     forall k x, Dict.get items k = Some x -> Dict.get d k = Some x) ->
  dicts_kept h (snd (dict_assign v d h)).
Proof.
  intros Hgrow. destruct v; simpl; try apply dicts_kept_refl.
  unfold assign. destruct (nth_error h l) as [o |] eqn:El; simpl;
    [| apply dicts_kept_refl].
  intros l' d' Hl'. destruct (Nat.eq_dec l l') as [<- | Hne].
  - exists d. rewrite nth_error_replace_nth_eq
      by (apply nth_error_Some; congruence).
    split; [reflexivity |]. apply Hgrow.
    simpl. unfold bind, deref. rewrite Hl'. reflexivity.
  - exists d'. now rewrite nth_error_replace_nth_neq.
Qed.

Lemma dict_items_heap (v : HVal) (h : heap) : snd (dict_items v h) = h.
Proof.
  destruct v; simpl; try reflexivity. unfold bind, deref.
  now destruct (nth_error h l) as [[items | items] |].
Qed.

Lemma dicts_kept_update_missing (defaults opdef : HVal) (h : heap) :
  dicts_kept h (snd (update_missing defaults opdef h)).
Proof.
  unfold update_missing, bind.
  destruct (dict_items opdef h) as [[items | e] h1] eqn:Eo.
  - pose proof (dict_items_heap opdef h) as H1. rewrite Eo in H1.
    simpl in H1. subst h1.
    destruct (dict_items defaults h) as [[d | e] h2] eqn:Ed.
    + pose proof (dict_items_heap defaults h) as H2. rewrite Ed in H2.
      simpl in H2. subst h2.
      apply dicts_kept_dict_assign.
      intros items' Hitems' k x Hk.
      rewrite Eo in Hitems'. injection Hitems' as <-.
      rewrite get_update_other; [exact Hk |].
      now apply filter_absent_keys with (v := x).
    + pose proof (dict_items_heap defaults h) as H2. rewrite Ed in H2.
      simpl in *. subst h2. apply dicts_kept_refl.
  - pose proof (dict_items_heap opdef h) as H1. rewrite Eo in H1.
    simpl in *. subst h1. apply dicts_kept_refl.
Qed.

Lemma dicts_kept_for_values (opdefs : HVal) (size : nat) (values : list HVal)
    (body : HVal -> M unit) :
  (forall v h, dicts_kept h (snd (body v h))) ->
  forall h, dicts_kept h (snd (for_values opdefs size values body h)).
Proof.
  intros Hbody. induction values as [|v values IH]; simpl.
  - apply dicts_kept_bind; [apply dicts_kept_dict_items |].
    intros items h. destruct (Nat.eqb (length items) size); apply dicts_kept_refl.
  - apply dicts_kept_bind; [apply dicts_kept_dict_items |].
    intros items h. destruct (Nat.eqb (length items) size).
    + apply dicts_kept_bind; [apply Hbody | intros _; exact IH].
    + apply dicts_kept_refl.
Qed.

Lemma dicts_kept_apply_opdef_defaults (opdefs : HVal) (h : heap) :
  dicts_kept h (snd (_apply_opdef_defaults opdefs h)).
Proof.
  revert h. unfold _apply_opdef_defaults.
  apply dicts_kept_bind; [apply dicts_kept_alloc |]. intros env.
  apply dicts_kept_bind; [apply dicts_kept_alloc |]. intros defaults.
  apply dicts_kept_bind; [apply dicts_kept_dict_items |]. intros items.
  apply dicts_kept_for_values. apply dicts_kept_update_missing.
Qed.

(** ** The filled catalog *)

Lemma get_In {V : Type} (d : Dict.t V) (k : string) (v : V) :
  Dict.get d k = Some v -> In (k, v) d.
Proof.
  induction d as [|[k' v'] d IH]; simpl; [discriminate |].
  destruct (String.eqb k k') eqn:E.
  - apply String.eqb_eq in E. intros [= ->]. subst. now left.
  - intros H. right. now apply IH.
Qed.

Lemma get_filter_key {V : Type} (p : string -> bool) (d : Dict.t V) (k : string) :
  p k = true ->
  Dict.get (filter (fun kv => p (fst kv)) d) k = Dict.get d k.
Proof.
  intros Hp. induction d as [|[k' v] d IH]; simpl; [reflexivity |].
  destruct (String.eqb k k') eqn:E.
  - apply String.eqb_eq in E. subst k'. rewrite Hp. simpl.
    now rewrite String.eqb_refl.
  - destruct (p k'); simpl; [rewrite E |]; exact IH.
Qed.

(** A filled operation definition binds a key to what the declaration binds
    it to, and otherwise to its default. *)
Lemma get_with_defaults (declared : Dict.t PyVal) (k : string) :
  Dict.get (declared ++ missing_defaults declared) k =
    match Dict.get declared k with
    | Some v => Some v
    | None => Dict.get default_table k
    end.
Proof.
  rewrite get_app.
  destruct (Dict.get declared k) eqn:E; [reflexivity |].
  apply (get_filter_key (fun k => negb (Dict.contains declared k))).
  unfold Dict.contains. now rewrite E.
Qed.

Lemma skopt_declaration_dicts :
  Forall (fun kv => exists declared, snd kv = VDict declared) skopt_declaration.
Proof. repeat constructor; eexists; reflexivity. Qed.

Lemma get_skopt_declaration (name : string) (opdef : PyVal) :
  Dict.get skopt_declaration name = Some opdef ->
  exists declared, opdef = VDict declared.
Proof.
  intros H. apply get_In in H.
  exact (proj1 (Forall_forall _ _) skopt_declaration_dicts _ H).
Qed.

(** * Properties of the catalog *)

(** C7.  Default filling never overwrites a declared field.  In any store,
    every dictionary, so every operation definition, binds after
    [_apply_opdef_defaults] each key it bound before to the same value,
    whether the call returns or raises; and the catalog built on any store
    binds every field of every declared operation to its declared value: the
    random operation keeps delete-on-success and can-stage-trials true. *)
Theorem declared_fields_are_kept :
  (forall opdefs h r h',
     _apply_opdef_defaults opdefs h = (r, h') ->
     forall l declared field v,
       nth_error h l = Some (ODict declared) ->
       Dict.get declared field = Some v ->
       exists built,
         nth_error h' l = Some (ODict built) /\ Dict.get built field = Some v)
  /\
  (forall h0, exists root h1 catalog,
     _skopt_opdefs h0 = (Returns root, h1)
     /\ read_back 6 h1 root = Some (VDict catalog)
     /\ (forall name declared field v,
           Dict.get skopt_declaration name = Some (VDict declared) ->
           Dict.get declared field = Some v ->
           exists built,
             Dict.get catalog name = Some (VDict built)
             /\ Dict.get built field = Some v)
     /\ (exists random,
           Dict.get catalog "random" = Some (VDict random)
           /\ Dict.get random "delete-on-success" = Some (VBool true)
           /\ Dict.get random "can-stage-trials" = Some (VBool true))).
Proof.
  split.
  - intros opdefs h r h' Hrun l declared field v Hl Hfield.
    pose proof (dicts_kept_apply_opdef_defaults opdefs h) as Hkept.
    rewrite Hrun in Hkept. simpl in Hkept.
    destruct (Hkept l declared Hl) as (built & Hl' & Hbuilt).
    exists built. split; [exact Hl' | now apply Hbuilt].
  - intros h0. destruct (skopt_opdefs_run h0) as (built & Hrun & _ & Hread).
    exists (HRef (length h0 + 40)), (h0 ++ built),
      (Dict.map_values with_defaults skopt_declaration).
    split; [exact Hrun |].
    split; [specialize (Hread []); now rewrite app_nil_r in Hread |].
    split.
    + intros name declared field v Hname Hfield.
      exists (declared ++ missing_defaults declared). split.
      * now rewrite get_map_values, Hname.
      * now rewrite get_with_defaults, Hfield.
    + eexists. repeat split; reflexivity.
Qed.

(** The random operation of the declaration, constructed on the empty store
    at address 0 under the catalog at address 40: default filling leaves its
    delete-on-success true. *)
Lemma declared_fields_are_kept_example :
  exists built,
    nth_error
      (snd (_apply_opdef_defaults (HRef 40) (snd (construct skopt_document []))))
      0 = Some (ODict built)
    /\ Dict.get built "delete-on-success" = Some (HBool true).
Proof.
  apply (proj1 declared_fields_are_kept (HRef 40)
           (snd (construct skopt_document []))
           (fst (_apply_opdef_defaults (HRef 40)
                   (snd (construct skopt_document []))))
           (snd (_apply_opdef_defaults (HRef 40)
                   (snd (construct skopt_document []))))
           (surjective_pairing _)
           0
           [("description",
              HStr "Batch processor supporting random flag value generation.");
            ("exec", HStr "${python_exe} -um guild.plugins.random_main");
            ("delete-on-success", HBool true);
            ("can-stage-trials", HBool true)]
           "delete-on-success" (HBool true));
    reflexivity.
Defined.

(** C8.  After catalog construction every operation definition of the
    catalog has the five behavioral defaults: the flag encoder reference,
    the trial cap 20, delete-on-success false, can-stage-trials false and
    the environment with NO_OP_INTERRUPTED_MSG "1", each taken from the
    table of defaults where the declaration has no such field and from the
    declaration where it has. *)
Theorem catalog_defaults_are_populated (h0 : heap) :
  exists root h1 catalog,
    _skopt_opdefs h0 = (Returns root, h1)
    /\ read_back 6 h1 root = Some (VDict catalog)
    /\ Dict.keys catalog = ["random"; "gp"; "forest"; "gbrt"]
    /\ forall name opdef,
         Dict.get catalog name = Some opdef ->
         exists declared built,
           Dict.get skopt_declaration name = Some (VDict declared)
           /\ opdef = VDict built
           /\ let populated (field : string) (default : PyVal) : Prop :=
                Dict.get built field =
                  Some match Dict.get declared field with
                       | Some v => v
                       | None => default
                       end in
              populated "flag-encoder"
                (VStr "guild.plugins.skopt:encode_flag_for_optimizer")
              /\ populated "default-max-trials" (VInt 20)
              /\ populated "delete-on-success" (VBool false)
              /\ populated "can-stage-trials" (VBool false)
              /\ populated "env" (VDict [("NO_OP_INTERRUPTED_MSG", VStr "1")]).
Proof.
  destruct (skopt_opdefs_run h0) as (segment & Hrun & _ & Hread).
  exists (HRef (length h0 + 40)), (h0 ++ segment),
    (Dict.map_values with_defaults skopt_declaration).
  split; [exact Hrun |].
  split; [specialize (Hread []); now rewrite app_nil_r in Hread |].
  split; [reflexivity |].
  intros name opdef Hname. rewrite get_map_values in Hname.
  destruct (Dict.get skopt_declaration name) as [x |] eqn:Ex; [| discriminate].
  destruct (get_skopt_declaration name x Ex) as (declared & ->).
  injection Hname as <-.
  exists declared. eexists. split; [reflexivity |]. split; [reflexivity |].
  assert (Hpop : forall field default,
            Dict.get default_table field = Some default ->
            Dict.get (declared ++ missing_defaults declared) field =
              Some match Dict.get declared field with
                   | Some v => v
                   | None => default
                   end).
  { intros field default Hdefault. rewrite get_with_defaults.
    now destruct (Dict.get declared field). }
  cbv zeta. repeat split; apply Hpop; reflexivity.
Qed.

(** C9.  Catalog construction is repeatable: built twice, one build after
    the other on any store, it returns two different dictionaries that read
    back to the same catalog, field for field, and the second build leaves
    the first catalog as it was. *)
Theorem catalog_construction_is_idempotent (h0 : heap) :
  exists root1 h1 root2 h2 catalog,
    _skopt_opdefs h0 = (Returns root1, h1)
    /\ _skopt_opdefs h1 = (Returns root2, h2)
    /\ root1 <> root2
    /\ read_back 6 h1 root1 = Some catalog
    /\ read_back 6 h2 root1 = Some catalog
    /\ read_back 6 h2 root2 = Some catalog
    /\ catalog = filled_catalog skopt_document.
Proof.
  destruct (skopt_opdefs_run h0) as (built1 & Hrun1 & Hlen1 & Hread1).
  destruct (skopt_opdefs_run (h0 ++ built1)) as (built2 & Hrun2 & _ & Hread2).
  exists (HRef (length h0 + 40)), (h0 ++ built1),
    (HRef (length (h0 ++ built1) + 40)), ((h0 ++ built1) ++ built2),
    (filled_catalog skopt_document).
  split; [exact Hrun1 |]. split; [exact Hrun2 |].
  split.
  { rewrite length_app. intros [= H]. lia. }
  split; [specialize (Hread1 []); now rewrite app_nil_r in Hread1 |].
  split; [rewrite <- app_assoc; apply Hread1 |].
  split; [specialize (Hread2 []); now rewrite app_nil_r in Hread2 |].
  reflexivity.
Qed.

(** * Properties of the resolver *)

Lemma str_in_false (x : string) (xs : list string) :
  ~ In x xs -> str_in x xs = false.
Proof.
  unfold str_in. induction xs as [|y xs IH]; simpl; [reflexivity |].
  intros Hnot. destruct (String.eqb x y) eqn:E.
  - apply String.eqb_eq in E. exfalso. apply Hnot. now left.
  - apply IH. intros Hin. apply Hnot. now right.
Qed.

Section ResolverFacts.

Variable ModelRef : Type.
Variable modellib_ModelRef : string -> string -> string -> string -> ModelRef.
Variable guild_version : string.
Variable ModelDef : Type.
Variable model_proxy_modeldef : string -> HVal -> string -> M ModelDef.

Hypothesis modeldef_returns :
  forall model_name data src h,
    exists md h', model_proxy_modeldef model_name data src h = (Returns md, h').

(** When the host's [model_proxy.modeldef] returns, so does the proxy's
    constructor, on any store. *)
Lemma SkoptModelProxy_init_returns (h : heap) :
  exists proxy h',
    SkoptModelProxy_init ModelRef modellib_ModelRef guild_version ModelDef
      model_proxy_modeldef h = (Returns proxy, h').
Proof.
  unfold SkoptModelProxy_init, bind.
  destruct (skopt_opdefs_run h) as (built & -> & _ & _).
  unfold alloc.
  match goal with
  | |- context [model_proxy_modeldef ?a ?b ?c ?d] =>
      destruct (modeldef_returns a b c d) as (md & h' & ->)
  end.
  eexists. eexists. reflexivity.
Qed.

End ResolverFacts.

(** C6.  "gp", "bayesian", "gaussian" and "skopt:gp" all resolve to a proxy
    paired with the operation name "gp" (the host's [model_proxy.modeldef]
    returning); a spec outside the recognized aliases, such as
    "nonexistent", resolves to [None], nothing raised and the store as it
    was. *)
Theorem resolve_model_op_aliases
    (ModelRef : Type)
    (modellib_ModelRef : string -> string -> string -> string -> ModelRef)
    (guild_version : string) (ModelDef : Type)
    (model_proxy_modeldef : string -> HVal -> string -> M ModelDef)
    (h : heap) :
  let resolve :=
    resolve_model_op ModelRef modellib_ModelRef guild_version ModelDef
      model_proxy_modeldef in
  ((forall model_name data src h1,
      exists md h2, model_proxy_modeldef model_name data src h1 = (Returns md, h2)) ->
   forall opspec,
     In opspec ["gp"; "bayesian"; "gaussian"; "skopt:gp"] ->
     exists proxy h', resolve opspec h = (Returns (Some (proxy, "gp")), h'))
  /\ (forall opspec,
        ~ In opspec recognized_aliases -> resolve opspec h = (Returns None, h))
  /\ resolve "nonexistent" h = (Returns None, h).
Proof.
  intros resolve. split; [| split].
  - intros Hreturns opspec Hin.
    destruct (SkoptModelProxy_init_returns ModelRef modellib_ModelRef
                guild_version ModelDef model_proxy_modeldef Hreturns h)
      as (proxy & h' & Hinit).
    exists proxy, h'.
    assert (Hgp : resolve opspec =
                  (proxy <- SkoptModelProxy_init ModelRef modellib_ModelRef
                              guild_version ModelDef model_proxy_modeldef ;;
                   ret (Some (proxy, "gp")))).
    { simpl in Hin.
      destruct Hin as [<- | [<- | [<- | [<- | []]]]]; reflexivity. }
    rewrite Hgp. unfold bind. now rewrite Hinit.
  - intros opspec Hnot. unfold resolve, resolve_model_op.
    rewrite !str_in_false; [reflexivity | | | |];
      intros Hin; apply Hnot; unfold recognized_aliases; simpl in *; tauto.
  - reflexivity.
Qed.

(** The four aliases of gp and a spec that is no alias, on the empty store
    and with a host that records what it is given. *)
Lemma resolve_model_op_aliases_example :
  let resolve :=
    resolve_model_op (list string) example_ModelRef "0.8.2"
      (string * HVal * string) example_modeldef in
  (exists proxy h', resolve "gp" [] = (Returns (Some (proxy, "gp")), h'))
  /\ (exists proxy h', resolve "bayesian" [] = (Returns (Some (proxy, "gp")), h'))
  /\ (exists proxy h', resolve "gaussian" [] = (Returns (Some (proxy, "gp")), h'))
  /\ (exists proxy h', resolve "skopt:gp" [] = (Returns (Some (proxy, "gp")), h'))
  /\ resolve "nonexistent" [] = (Returns None, []).
Proof.
  intros resolve.
  destruct (resolve_model_op_aliases (list string) example_ModelRef "0.8.2"
              (string * HVal * string) example_modeldef [])
    as (Hgp & _ & Hnone).
  assert (Hhost : forall model_name data src h1,
            exists md h2,
              example_modeldef model_name data src h1 = (Returns md, h2)).
  { intros model_name data src h1. eexists. eexists. reflexivity. }
  repeat split; try exact Hnone; apply (Hgp Hhost); simpl; tauto.
Defined.

(** * Further properties of the flag encoder *)

Lemma occurs_split (c : ascii) (s1 s2 t1 t2 : string) :
  occurs c s1 = false -> occurs c s2 = false ->
  (s1 ++ String c t1 = s2 ++ String c t2)%string ->
  s1 = s2 /\ t1 = t2.
Proof.
  revert s2. induction s1 as [|a s1 IH]; intros [|b s2]; simpl.
  - intros _ _ [= ->]. now split.
  - intros _ Hb [= <- _]. now rewrite Ascii.eqb_refl in Hb.
  - intros Ha _ [= -> _]. now rewrite Ascii.eqb_refl in Ha.
  - intros Ha Hb [= <- H].
    apply orb_false_iff in Ha as [_ Ha]. apply orb_false_iff in Hb as [_ Hb].
    destruct (IH s2 Ha Hb H) as [-> ->]. now split.
Qed.

Lemma occurs_append (c : ascii) (s t : string) :
  occurs c (s ++ t)%string = occurs c s || occurs c t.
Proof.
  induction s as [|a s IH]; simpl; [reflexivity |].
  now rewrite IH, orb_assoc.
Qed.

Lemma length_append (s t : string) :
  String.length (s ++ t)%string = String.length s + String.length t.
Proof. induction s as [|a s IH]; simpl; [reflexivity | now rewrite IH]. Qed.

Lemma append_cancel_r (s1 s2 t : string) :
  (s1 ++ t = s2 ++ t)%string -> s1 = s2.
Proof.
  revert s2. induction s1 as [|a s1 IH]; intros [|b s2]; simpl.
  - reflexivity.
  - intros H. apply (f_equal String.length) in H. simpl in H.
    rewrite length_append in H. lia.
  - intros H. apply (f_equal String.length) in H. simpl in H.
    rewrite length_append in H. lia.
  - intros [= <- H]. now rewrite (IH s2 H).
Qed.



(** X3.  A descriptor determines its parts.  For two flag definitions with
    both bounds and no choices, function names without "[" and bound
    encodings without ":", equal results of [encode_flag_for_optimizer]
    mean equal function names, equal encodings of [min] and of [max], a
    value in both or in neither, and equal encodings of the values. *)
Theorem descriptor_determines_its_parts
    (encode_flag_val : PyVal -> string)
    (flagdef1 flagdef2 : FlagDef.t) (val1 val2 : PyVal) :
  truthy_choices (FlagDef.choices flagdef1) = false ->
  truthy_choices (FlagDef.choices flagdef2) = false ->
  FlagDef.min flagdef1 <> VNone -> FlagDef.max flagdef1 <> VNone ->
  FlagDef.min flagdef2 <> VNone -> FlagDef.max flagdef2 <> VNone ->
  occurs "[" (str_or (FlagDef.distribution flagdef1) "uniform") = false ->
  occurs "[" (str_or (FlagDef.distribution flagdef2) "uniform") = false ->
  occurs ":" (encode_flag_val (FlagDef.min flagdef1)) = false ->
  occurs ":" (encode_flag_val (FlagDef.max flagdef1)) = false ->
  occurs ":" (encode_flag_val (FlagDef.min flagdef2)) = false ->
  occurs ":" (encode_flag_val (FlagDef.max flagdef2)) = false ->
  encode_flag_for_optimizer encode_flag_val val1 flagdef1
    = encode_flag_for_optimizer encode_flag_val val2 flagdef2 ->
  str_or (FlagDef.distribution flagdef1) "uniform"
    = str_or (FlagDef.distribution flagdef2) "uniform"
  /\ encode_flag_val (FlagDef.min flagdef1) = encode_flag_val (FlagDef.min flagdef2)
  /\ encode_flag_val (FlagDef.max flagdef1) = encode_flag_val (FlagDef.max flagdef2)
  /\ (val1 = VNone <-> val2 = VNone)
  /\ (val1 <> VNone -> encode_flag_val val1 = encode_flag_val val2).
Proof.
  intros Hc1 Hc2 Hmin1 Hmax1 Hmin2 Hmax2 Hn1 Hn2 Hl1 Hh1 Hl2 Hh2 Heq.
  rewrite !encode_bounds, !_encode_function_bounds in Heq by assumption.
  injection Heq as Heq.
  change ("[" ++ ?x)%string with (String "[" x) in Heq.
  apply occurs_split in Heq as [Hname Heq]; [| assumption | assumption].
  split; [exact Hname |].
  cbn [String.concat] in Heq.
  rewrite !append_assoc in Heq.
  change (":" ++ ?x)%string with (String ":" x) in Heq.
  apply occurs_split in Heq as [Hlow Heq]; [| assumption | assumption].
  split; [exact Hlow |].
  destruct val1, val2; cbn [is_not_none String.concat] in Heq;
    rewrite ?append_assoc in Heq;
    change (":" ++ ?x)%string with (String ":" x) in Heq;
    try (apply append_cancel_r in Heq; repeat split; first [assumption | congruence]);
    try (exfalso;
         apply (f_equal (occurs ":")) in Heq;
         rewrite !occurs_append in Heq; simpl in Heq;
         rewrite ?Hh1, ?Hh2, ?orb_true_r in Heq; simpl in Heq; discriminate);
    try (apply occurs_split in Heq as [Hhigh Heq]; [| assumption | assumption];
         apply append_cancel_r in Heq;
         repeat split; first [assumption | congruence | discriminate]).
Qed.

(** An integer value and a string value with the same encoding, under two
    flag definitions with the same bounds. *)
Lemma descriptor_determines_its_parts_example :
  str_or None "uniform" = str_or (Some "uniform") "uniform"
  /\ example_encode_flag_val (VInt 1) = example_encode_flag_val (VInt 1)
  /\ example_encode_flag_val (VInt 2) = example_encode_flag_val (VInt 2)
  /\ (VInt 5 = VNone <-> VStr "5" = VNone)
  /\ (VInt 5 <> VNone ->
      example_encode_flag_val (VInt 5) = example_encode_flag_val (VStr "5")).
Proof.
  apply (descriptor_determines_its_parts example_encode_flag_val
           (FlagDef.mk None (VInt 1) (VInt 2) None)
           (FlagDef.mk (Some []) (VInt 1) (VInt 2) (Some "uniform"))
           (VInt 5) (VStr "5"));
    first [reflexivity | discriminate].
Defined.

(** * Further properties of the resolver *)

Lemma str_in_true (x : string) (xs : list string) :
  str_in x xs = true -> In x xs.
Proof.
  unfold str_in. intros H. apply existsb_exists in H as (y & Hin & Heq).
  apply String.eqb_eq in Heq. now subst.
Qed.

Lemma bind_returns {A B : Type} (m : M A) (k : A -> M B) (h h' : heap) (b : B) :
  (x <- m ;; k x) h = (Returns b, h') ->
  exists a h1, m h = (Returns a, h1) /\ k a h1 = (Returns b, h').
Proof.
  unfold bind. destruct (m h) as [[a | e] h1]; [| discriminate].
  intros H. now exists a, h1.
Qed.

(** X4.  What [resolve_model_op] returns, it returns by its table: [None]
    only for a spec outside the recognized aliases, the store untouched;
    and an operation name only among random, gp, forest and gbrt, the spec
    being that name, that name under "skopt:", or, for gp, "bayesian" or
    "gaussian". *)
Theorem resolve_model_op_returns_by_table
    (ModelRef : Type)
    (modellib_ModelRef : string -> string -> string -> string -> ModelRef)
    (guild_version : string) (ModelDef : Type)
    (model_proxy_modeldef : string -> HVal -> string -> M ModelDef)
    (opspec : string) (h h' : heap)
    (r : option (SkoptModelProxy ModelRef ModelDef * string)) :
  resolve_model_op ModelRef modellib_ModelRef guild_version ModelDef
    model_proxy_modeldef opspec h = (Returns r, h') ->
  (r = None -> ~ In opspec recognized_aliases /\ h' = h)
  /\ (forall proxy op_name, r = Some (proxy, op_name) ->
        In op_name ["random"; "gp"; "forest"; "gbrt"]
        /\ (opspec = op_name
            \/ opspec = ("skopt:" ++ op_name)%string
            \/ (op_name = "gp" /\ (opspec = "bayesian" \/ opspec = "gaussian")))).
Proof.
  unfold resolve_model_op.
  destruct (str_in opspec ["random"; "skopt:random"]) eqn:E1.
  { intros H. apply bind_returns in H as (p & h1 & _ & [= <- _]).
    apply str_in_true in E1. simpl in E1.
    split; [discriminate |]. intros proxy op_name [= _ <-].
    split; [simpl; tauto |]. destruct E1 as [<- | [<- | []]]; tauto. }
  destruct (str_in opspec ["gp"; "skopt:gp"; "bayesian"; "gaussian"]) eqn:E2.
  { intros H. apply bind_returns in H as (p & h1 & _ & [= <- _]).
    apply str_in_true in E2. simpl in E2.
    split; [discriminate |]. intros proxy op_name [= _ <-].
    split; [simpl; tauto |].
    destruct E2 as [<- | [<- | [<- | [<- | []]]]]; tauto. }
  destruct (str_in opspec ["forest"; "skopt:forest"]) eqn:E3.
  { intros H. apply bind_returns in H as (p & h1 & _ & [= <- _]).
    apply str_in_true in E3. simpl in E3.
    split; [discriminate |]. intros proxy op_name [= _ <-].
    split; [simpl; tauto |]. destruct E3 as [<- | [<- | []]]; tauto. }
  destruct (str_in opspec ["gbrt"; "skopt:gbrt"]) eqn:E4.
  { intros H. apply bind_returns in H as (p & h1 & _ & [= <- _]).
    apply str_in_true in E4. simpl in E4.
    split; [discriminate |]. intros proxy op_name [= _ <-].
    split; [simpl; tauto |]. destruct E4 as [<- | [<- | []]]; tauto. }
  intros [= <- <-]. split; [| discriminate].
  intros _. split; [| reflexivity].
  unfold recognized_aliases. intros Hin.
  assert (Hfalse : forall xs, str_in opspec xs = false -> ~ In opspec xs).
  { intros xs Hxs Hx. unfold str_in in Hxs.
    assert (Ht : existsb (String.eqb opspec) xs = true)
      by (apply existsb_exists; exists opspec; split;
          [exact Hx | apply String.eqb_refl]).
    congruence. }
  apply Hfalse in E1, E2, E3, E4. simpl in *. tauto.
Qed.

(** "skopt:forest" on the empty store, with a host that records what it is
    given. *)
Lemma resolve_model_op_returns_by_table_example :
  exists proxy h',
    resolve_model_op (list string) example_ModelRef "0.8.2"
      (string * HVal * string) example_modeldef "skopt:forest" []
      = (Returns (Some (proxy, "forest")), h')
    /\ In "forest" ["random"; "gp"; "forest"; "gbrt"]
    /\ ("skopt:forest" = "forest"
        \/ "skopt:forest" = ("skopt:" ++ "forest")%string
        \/ ("forest" = "gp"
            /\ ("skopt:forest" = "bayesian" \/ "skopt:forest" = "gaussian"))).
Proof.
  eexists. eexists.
  refine ((fun H => conj H
             (proj2 (resolve_model_op_returns_by_table (list string)
                       example_ModelRef "0.8.2" (string * HVal * string)
                       example_modeldef "skopt:forest" [] _ _ H)
                _ "forest" eq_refl)) _).
  vm_compute. reflexivity.
Defined.

Lemma read_back_dict (fuel : nat) (h : heap) (l : loc) (items : Dict.t HVal) :
  nth_error h l = Some (ODict items) ->
  read_back (S fuel) h (HRef l)
    = option_map VDict
        (mapM (fun kv => option_map (pair (fst kv)) (read_back fuel h (snd kv)))
              items).
Proof. intros H. simpl. now rewrite H. Qed.

(** X5.  What [SkoptModelProxy()] hands to the host and keeps.  On any
    store it builds the catalog, wraps it in a new dictionary under
    "operations", and calls [model_proxy.modeldef] with the name "skopt",
    that dictionary and the source "<SkoptModelProxy>"; the dictionary
    reads back to the filled catalog.  If the host returns, the proxy has
    the name "skopt", the reference of ("builtin", "guildai", the guild
    version, "skopt") and the host's model definition; if the host raises,
    so does the constructor. *)
Theorem SkoptModelProxy_init_calls_host
    (ModelRef : Type)
    (modellib_ModelRef : string -> string -> string -> string -> ModelRef)
    (guild_version : string) (ModelDef : Type)
    (model_proxy_modeldef : string -> HVal -> string -> M ModelDef)
    (h : heap) :
  exists built : heap,
    length built = 43
    /\ let data := HRef (length h + 43) in
       let store :=
         h ++ built ++ [ODict [("operations", HRef (length h + 40))]] in
       read_back 7 store data
         = Some (VDict [("operations", filled_catalog skopt_document)])
       /\ SkoptModelProxy_init ModelRef modellib_ModelRef guild_version ModelDef
            model_proxy_modeldef h
          = match model_proxy_modeldef "skopt" data "<SkoptModelProxy>" store with
            | (Returns md, h') =>
                (Returns {| name := "skopt";
                            reference :=
                              modellib_ModelRef "builtin" "guildai"
                                guild_version "skopt";
                            modeldef := md |}, h')
            | (Raises e, h') => (Raises e, h')
            end.
Proof.
  destruct (skopt_opdefs_run h) as (built & Hrun & Hlen & Hread).
  exists built. split; [exact Hlen |]. cbv zeta. split.
  - rewrite (read_back_dict 6 _ _ [("operations", HRef (length h + 40))]).
    + cbn [mapM fst snd]. now rewrite Hread.
    + rewrite app_assoc, nth_error_app2 by (rewrite length_app; lia).
      replace (length h + 43 - length (h ++ built)) with 0
        by (rewrite length_app; lia).
      reflexivity.
  - unfold SkoptModelProxy_init, bind. rewrite Hrun. unfold alloc.
    rewrite length_app, Hlen, <- app_assoc.
    destruct (model_proxy_modeldef _ _ _ _) as [[md | e] h']; reflexivity.
Qed.

(** * Further properties of default filling *)

Lemma set_absent {V : Type} (d : Dict.t V) (k : string) (v : V) :
  Dict.get d k = None -> Dict.set d k v = d ++ [(k, v)].
Proof.
  induction d as [|[k' v'] d IH]; simpl; [reflexivity |].
  destruct (String.eqb k k'); [discriminate |].
  intros H. now rewrite IH.
Qed.

(** Updating with keys that are new and distinct appends them. *)
Lemma update_absent {V : Type} (d other : Dict.t V) :
  (forall kv, In kv other -> Dict.get d (fst kv) = None) ->
  NoDup (Dict.keys other) ->
  Dict.update d other = d ++ other.
Proof.
  unfold Dict.update, Dict.keys. revert d.
  induction other as [|[k v] other IH]; intros d Hnew Hdistinct; simpl.
  - now rewrite app_nil_r.
  - rewrite set_absent by (apply (Hnew (k, v)); now left).
    inversion Hdistinct as [|? ? Hk Hrest]; subst.
    rewrite IH; [now rewrite <- app_assoc | | exact Hrest].
    intros [k' v'] Hin. simpl. rewrite get_app.
    pose proof (Hnew (k', v') (or_intror Hin)) as Hk'. simpl in Hk'.
    rewrite Hk'. simpl.
    destruct (String.eqb k' k) eqn:E; [| reflexivity].
    apply String.eqb_eq in E. subst k'. exfalso. apply Hk.
    now apply (in_map fst) in Hin.
Qed.

Lemma NoDup_keys_filter {V : Type} (p : string * V -> bool) (d : Dict.t V) :
  NoDup (Dict.keys d) -> NoDup (Dict.keys (filter p d)).
Proof.
  unfold Dict.keys. induction d as [|[k v] d IH]; simpl; [trivial |].
  intros H. inversion H as [|? ? Hk Hrest]; subst.
  destruct (p (k, v)); simpl; [| now apply IH].
  constructor; [| now apply IH].
  intros Hin. apply Hk. apply in_map_iff in Hin as (kv & Hfst & Hkv).
  apply filter_In in Hkv as [Hkv _]. apply in_map_iff. now exists kv.
Qed.

Lemma filter_none {A : Type} (p : A -> bool) (l : list A) :
  (forall x, In x l -> p x = false) -> filter p l = [].
Proof.
  induction l as [|x l IH]; simpl; [reflexivity |].
  intros H. rewrite (H x) by now left. apply IH. intros y Hy. apply H. now right.
Qed.

Lemma get_of_In {V : Type} (d : Dict.t V) (kv : string * V) :
  In kv d -> exists v, Dict.get d (fst kv) = Some v.
Proof.
  induction d as [|[k' v'] d IH]; simpl; [intros [] |].
  destruct (String.eqb (fst kv) k') eqn:E; [now exists v' |].
  intros [<- | Hin]; [| now apply IH].
  simpl in E. now rewrite String.eqb_refl in E.
Qed.

Lemma opdef_defaults_keys (env : HVal) : NoDup (Dict.keys (opdef_defaults env)).
Proof.
  unfold Dict.keys. simpl.
  repeat (constructor; [simpl; intuition discriminate |]). constructor.
Qed.

(** A filled operation definition has every key of the table. *)
Lemma filled_items_complete (env : HVal) (d : Dict.t HVal) (kv : string * HVal) :
  In kv (opdef_defaults env) ->
  Dict.contains (filled_items env d) (fst kv) = true.
Proof.
  intros Hin. unfold Dict.contains, filled_items. rewrite get_app.
  destruct (Dict.get d (fst kv)) eqn:E; [reflexivity |].
  rewrite (get_filter_key (fun k => negb (Dict.contains d k)))
    by (unfold Dict.contains; now rewrite E).
  now destruct (get_of_In _ _ Hin) as (v & ->).
Qed.

(** What [opdef.update(...)] stores for a definition that is as declared. *)
Lemma update_declared (env : HVal) (d : Dict.t HVal) :
  Dict.update d
    (filter (fun kv => negb (Dict.contains d (fst kv))) (opdef_defaults env))
    = filled_items env d.
Proof.
  apply update_absent.
  - intros kv Hin. apply filter_In in Hin as [_ Habsent].
    unfold Dict.contains in Habsent. now destruct (Dict.get d (fst kv)).
  - apply NoDup_keys_filter, opdef_defaults_keys.
Qed.

(** What it stores for a definition that has every key of the table: the
    definition as it is. *)
Lemma update_complete (env : HVal) (d : Dict.t HVal) :
  (forall kv, In kv (opdef_defaults env) -> Dict.contains d (fst kv) = true) ->
  Dict.update d
    (filter (fun kv => negb (Dict.contains d (fst kv))) (opdef_defaults env))
    = d.
Proof.
  intros Hcomplete. rewrite filter_none; [reflexivity |].
  intros kv Hin. now rewrite (Hcomplete kv Hin).
Qed.

Lemma replace_nth_same {A : Type} (n : nat) (x : A) (l : list A) :
  nth_error l n = Some x -> replace_nth n x l = l.
Proof.
  revert n. induction l as [|y l IH]; intros [|n]; simpl; try discriminate.
  - now intros [= ->].
  - intros H. now rewrite IH.
Qed.

(** One step of the loop on a dictionary. *)
Lemma update_missing_runs (H : heap) (defaults l : loc) (table d : Dict.t HVal) :
  nth_error H defaults = Some (ODict table) ->
  nth_error H l = Some (ODict d) ->
  update_missing (HRef defaults) (HRef l) H
    = (Returns tt,
       replace_nth l
         (ODict (Dict.update d
                   (filter (fun kv => negb (Dict.contains d (fst kv))) table)))
         H).
Proof.
  intros Htable Hd.
  unfold update_missing, dict_items, dict_assign, bind, deref, assign, ret.
  rewrite Hd. cbn. rewrite Htable. cbn. rewrite ?Hd. reflexivity.
Qed.

(** One step of the loop on anything else. *)
Lemma update_missing_not_a_dict (H : heap) (defaults v : HVal) :
  not_a_dict H v ->
  update_missing defaults v H = (Raises AttributeError, H).
Proof.
  unfold update_missing, bind. destruct v; simpl; try reflexivity.
  intros (items & Hl). unfold bind, deref. now rewrite Hl.
Qed.

Section DefaultFilling.

Variable h : heap.
Variable o : loc.
Variable items : Dict.t HVal.
Hypothesis catalog_at : nth_error h o = Some (ODict items).

Lemma nth_error_in_range {A : Type} (l : list A) (n : nat) (x : A) :
  nth_error l n = Some x -> n < length l.
Proof. intros H. apply nth_error_Some. congruence. Qed.

Lemma filling_start :
  filling h o items []
    ((h ++ [ODict env_default]) ++ [ODict (opdef_defaults (HRef (length h)))]).
Proof.
  pose proof (nth_error_in_range _ _ _ catalog_at) as Ho.
  unfold filling. rewrite <- app_assoc. repeat split.
  - rewrite length_app. simpl. lia.
  - rewrite nth_error_app2 by lia. now rewrite Nat.sub_diag.
  - rewrite nth_error_app2 by lia.
    now replace (length h + 1 - length h) with 1 by lia.
  - now rewrite nth_error_app1.
  - intros l d [].
  - intros l Hl _. now rewrite nth_error_app1.
  - intros l d Hd. left. rewrite nth_error_app1; [exact Hd |].
    now apply nth_error_in_range in Hd.
  - intros l xs Hxs. rewrite nth_error_app1; [exact Hxs |].
    now apply nth_error_in_range in Hxs.
Qed.

Lemma filling_step (done : list HVal) (H : heap) (v : HVal) :
  filling h o items done H ->
  is_opdef h o v ->
  exists H',
    update_missing (HRef (length h + 1)) v H = (Returns tt, H')
    /\ filling h o items (done ++ [v]) H'.
Proof.
  intros (Hlen & Henv & Htable & Hcat & Hdone & Hrest & Hdict & Hlist)
         (l & d & -> & Hd & Hlo).
  pose proof (nth_error_in_range _ _ _ Hd) as Hl.
  assert (Hstep : exists dH,
            nth_error H l = Some (ODict dH)
            /\ Dict.update dH
                 (filter (fun kv => negb (Dict.contains dH (fst kv)))
                    (opdef_defaults (HRef (length h))))
               = filled_items (HRef (length h)) d).
  { destruct (Hdict l d Hd) as [HH | HH]; eexists; (split; [exact HH |]).
    - apply update_declared.
    - apply update_complete. intros kv Hin. now apply filled_items_complete. }
  destruct Hstep as (dH & HdH & Hupdate).
  eexists. split.
  - rewrite (update_missing_runs H _ l _ dH Htable HdH), Hupdate. reflexivity.
  - assert (Hin_H : l < length H) by lia.
    unfold filling. rewrite length_replace_nth.
    repeat split.
    + exact Hlen.
    + rewrite nth_error_replace_nth_neq by lia. exact Henv.
    + rewrite nth_error_replace_nth_neq by lia. exact Htable.
    + rewrite nth_error_replace_nth_neq by congruence. exact Hcat.
    + intros l' d' Hin Hd'. destruct (Nat.eq_dec l l') as [<- | Hne].
      * rewrite nth_error_replace_nth_eq by exact Hin_H. congruence.
      * rewrite nth_error_replace_nth_neq by exact Hne.
        apply Hdone; [| exact Hd'].
        apply in_app_or in Hin as [Hin | [[= Heq] | []]]; [exact Hin | congruence].
    + intros l' Hl' Hnot. rewrite nth_error_replace_nth_neq.
      * apply Hrest; [exact Hl' |]. intros Hin. apply Hnot, in_or_app. now left.
      * intros <-. apply Hnot, in_or_app. right. now left.
    + intros l' d' Hd'. destruct (Nat.eq_dec l l') as [<- | Hne].
      * right. rewrite nth_error_replace_nth_eq by exact Hin_H. congruence.
      * rewrite nth_error_replace_nth_neq by exact Hne. now apply Hdict.
    + intros l' xs Hxs. rewrite nth_error_replace_nth_neq by congruence.
      now apply Hlist.
Qed.

Lemma for_values_filling (pre rest done : list HVal) (H : heap) :
  filling h o items done H ->
  Forall (is_opdef h o) pre ->
  exists H',
    for_values (HRef o) (length items) (pre ++ rest)
      (update_missing (HRef (length h + 1))) H
    = for_values (HRef o) (length items) rest
        (update_missing (HRef (length h + 1))) H'
    /\ filling h o items (done ++ pre) H'.
Proof.
  intros Hfill Hpre. revert done H Hfill.
  induction Hpre as [|v pre Hv _ IH]; intros done H Hfill.
  - exists H. rewrite app_nil_r. now split.
  - destruct (filling_step done H v Hfill Hv) as (H1 & Hrun & Hfill1).
    destruct (IH (done ++ [v]) H1 Hfill1) as (H' & Hloop & Hfill').
    exists H'. split.
    + rewrite <- Hloop. simpl.
      destruct Hfill as (_ & _ & _ & Hcat & _).
      unfold bind at 1. unfold dict_items, bind, deref. rewrite Hcat.
      unfold ret. rewrite Nat.eqb_refl. unfold bind. now rewrite Hrun.
    + now rewrite <- app_assoc in Hfill'.
Qed.

Lemma for_values_end (done : list HVal) (H : heap) (body : HVal -> M unit) :
  filling h o items done H ->
  for_values (HRef o) (length items) [] body H = (Returns tt, H).
Proof.
  intros (_ & _ & _ & Hcat & _). simpl.
  unfold bind, dict_items, bind, deref. rewrite Hcat.
  unfold ret. now rewrite Nat.eqb_refl.
Qed.

Lemma for_values_not_a_dict (done post : list HVal) (H : heap) (bad : HVal) :
  filling h o items done H ->
  not_a_dict h bad ->
  for_values (HRef o) (length items) (bad :: post)
    (update_missing (HRef (length h + 1))) H
  = (Raises AttributeError, H).
Proof.
  intros (_ & _ & _ & Hcat & _ & _ & _ & Hlist) Hbad. simpl.
  unfold bind at 1. unfold dict_items, bind, deref. rewrite Hcat.
  unfold ret. rewrite Nat.eqb_refl. unfold bind.
  rewrite update_missing_not_a_dict; [reflexivity |].
  destruct bad; simpl in *; trivial.
  destruct Hbad as (xs & Hxs). exists xs. now apply Hlist.
Qed.

Lemma apply_opdef_defaults_loop :
  _apply_opdef_defaults (HRef o) h
  = for_values (HRef o) (length items) (Dict.values items)
      (update_missing (HRef (length h + 1)))
      ((h ++ [ODict env_default]) ++ [ODict (opdef_defaults (HRef (length h)))]).
Proof.
  destruct filling_start as (_ & _ & _ & Hcat & _).
  unfold _apply_opdef_defaults, bind, alloc.
  unfold dict_items, bind, deref. rewrite Hcat. unfold ret.
  rewrite length_app. simpl. reflexivity.
Qed.

End DefaultFilling.

(** On a catalog whose values are all operation definitions the call
    returns, every definition visited. *)
Lemma apply_opdef_defaults_returns (h : heap) (o : loc) (items : Dict.t HVal) :
  nth_error h o = Some (ODict items) ->
  Forall (is_opdef h o) (Dict.values items) ->
  exists h',
    _apply_opdef_defaults (HRef o) h = (Returns tt, h')
    /\ filling h o items (Dict.values items) h'.
Proof.
  intros Hcat Hvalues.
  destruct (for_values_filling h o items (Dict.values items) [] [] _
              (filling_start h o items Hcat) Hvalues) as (h' & Hloop & Hfill).
  exists h'. split; [| exact Hfill].
  rewrite (apply_opdef_defaults_loop h o items Hcat).
  rewrite app_nil_r in Hloop. rewrite Hloop.
  exact (for_values_end h o items _ h' _ Hfill).
Qed.

(** X6.  What [_apply_opdef_defaults] does to a catalog of dictionaries.  If
    every value of the catalog is a dictionary of the store (and not the
    catalog itself), the call returns; it has allocated two objects; every
    operation definition now holds its declared items, in their places and
    with their values, followed by the defaults it lacked, in the order of
    the table; and every object that is not a value of the catalog is as it
    was. *)
Theorem apply_opdef_defaults_fills (h : heap) (o : loc) (items : Dict.t HVal) :
  nth_error h o = Some (ODict items) ->
  Forall (is_opdef h o) (Dict.values items) ->
  exists h',
    _apply_opdef_defaults (HRef o) h = (Returns tt, h')
    /\ length h' = length h + 2
    /\ (forall l declared,
          In (HRef l) (Dict.values items) ->
          nth_error h l = Some (ODict declared) ->
          nth_error h' l
            = Some (ODict
                      (declared ++
                       filter (fun kv => negb (Dict.contains declared (fst kv)))
                         (opdef_defaults (HRef (length h))))))
    /\ (forall l,
          l < length h -> ~ In (HRef l) (Dict.values items) ->
          nth_error h' l = nth_error h l).
Proof.
  intros Hcat Hvalues.
  destruct (apply_opdef_defaults_returns h o items Hcat Hvalues)
    as (h' & Hrun & Hlen & _ & _ & _ & Hdone & Hrest & _).
  exists h'. repeat split; assumption.
Qed.

(** A catalog of two definitions, one declaring its own env. *)
Lemma apply_opdef_defaults_fills_example :
  exists h',
    _apply_opdef_defaults (HRef 2)
      [ODict [("exec", HStr "a")];
       ODict [("env", HNone); ("exec", HStr "b")];
       ODict [("first", HRef 0); ("second", HRef 1)]]
    = (Returns tt, h')
    /\ nth_error h' 0
       = Some (ODict [("exec", HStr "a");
                      ("flag-encoder",
                        HStr "guild.plugins.skopt:encode_flag_for_optimizer");
                      ("default-max-trials", HInt 20);
                      ("delete-on-success", HBool false);
                      ("can-stage-trials", HBool false);
                      ("env", HRef 3)])
    /\ nth_error h' 1
       = Some (ODict [("env", HNone); ("exec", HStr "b");
                      ("flag-encoder",
                        HStr "guild.plugins.skopt:encode_flag_for_optimizer");
                      ("default-max-trials", HInt 20);
                      ("delete-on-success", HBool false);
                      ("can-stage-trials", HBool false)]).
Proof.
  destruct (apply_opdef_defaults_fills
              [ODict [("exec", HStr "a")];
               ODict [("env", HNone); ("exec", HStr "b")];
               ODict [("first", HRef 0); ("second", HRef 1)]]
              2 [("first", HRef 0); ("second", HRef 1)] eq_refl)
    as (h' & Hrun & _ & Hfilled & _).
  - repeat constructor.
    + exists 0, [("exec", HStr "a")]. repeat split; discriminate.
    + exists 1, [("env", HNone); ("exec", HStr "b")].
      repeat split; discriminate.
  - exists h'. split; [exact Hrun |]. split.
    + apply (Hfilled 0 [("exec", HStr "a")]); [simpl; tauto | reflexivity].
    + apply (Hfilled 1 [("env", HNone); ("exec", HStr "b")]);
        [simpl; tauto | reflexivity].
Defined.

(** X7.  The default environment is one shared object.  Under the same
    conditions, every operation definition that declares no "env" refers,
    under "env", to one and the same new dictionary, and that dictionary
    binds NO_OP_INTERRUPTED_MSG to "1"; a definition that declares "env"
    keeps what it declares. *)
Theorem apply_opdef_defaults_shares_env (h : heap) (o : loc) (items : Dict.t HVal) :
  nth_error h o = Some (ODict items) ->
  Forall (is_opdef h o) (Dict.values items) ->
  exists h',
    _apply_opdef_defaults (HRef o) h = (Returns tt, h')
    /\ nth_error h' (length h) = Some (ODict [("NO_OP_INTERRUPTED_MSG", HStr "1")])
    /\ forall l declared,
         In (HRef l) (Dict.values items) ->
         nth_error h l = Some (ODict declared) ->
         exists built,
           nth_error h' l = Some (ODict built)
           /\ Dict.get built "env"
              = match Dict.get declared "env" with
                | Some env => Some env
                | None => Some (HRef (length h))
                end.
Proof.
  intros Hcat Hvalues.
  destruct (apply_opdef_defaults_returns h o items Hcat Hvalues)
    as (h' & Hrun & _ & Henv & _ & _ & Hdone & _).
  exists h'. split; [exact Hrun |]. split; [exact Henv |].
  intros l declared Hin Hl. eexists. split; [exact (Hdone l declared Hin Hl) |].
  unfold filled_items. rewrite get_app.
  destruct (Dict.get declared "env") eqn:E; [reflexivity |].
  rewrite (get_filter_key (fun k => negb (Dict.contains declared k)))
    by (unfold Dict.contains; now rewrite E).
  reflexivity.
Qed.

(** Two definitions without env: both refer to the dictionary at 3. *)
Lemma apply_opdef_defaults_shares_env_example :
  exists h' first second,
    _apply_opdef_defaults (HRef 2)
      [ODict [("exec", HStr "a")];
       ODict [("exec", HStr "b")];
       ODict [("first", HRef 0); ("second", HRef 1)]]
    = (Returns tt, h')
    /\ nth_error h' 3 = Some (ODict [("NO_OP_INTERRUPTED_MSG", HStr "1")])
    /\ nth_error h' 0 = Some (ODict first)
    /\ nth_error h' 1 = Some (ODict second)
    /\ Dict.get first "env" = Some (HRef 3)
    /\ Dict.get second "env" = Some (HRef 3).
Proof.
  destruct (apply_opdef_defaults_shares_env
              [ODict [("exec", HStr "a")];
               ODict [("exec", HStr "b")];
               ODict [("first", HRef 0); ("second", HRef 1)]]
              2 [("first", HRef 0); ("second", HRef 1)] eq_refl)
    as (h' & Hrun & Henv & Hshared).
  - repeat constructor.
    + exists 0, [("exec", HStr "a")]. repeat split; discriminate.
    + exists 1, [("exec", HStr "b")]. repeat split; discriminate.
  - destruct (Hshared 0 [("exec", HStr "a")]) as (first & H0 & Hfirst);
      [simpl; tauto | reflexivity |].
    destruct (Hshared 1 [("exec", HStr "b")]) as (second & H1 & Hsecond);
      [simpl; tauto | reflexivity |].
    exists h', first, second. repeat split; assumption.
Defined.

(** The loop on definitions that have every key of the table: the store
    stays as it is. *)
Lemma for_values_complete (K : heap) (o defaults : loc) (items : Dict.t HVal)
    (env : HVal) (values : list HVal) :
  nth_error K o = Some (ODict items) ->
  nth_error K defaults = Some (ODict (opdef_defaults env)) ->
  Forall (fun v => exists l d,
            v = HRef l /\ nth_error K l = Some (ODict d)
            /\ forall kv, In kv (opdef_defaults env) ->
                 Dict.contains d (fst kv) = true) values ->
  for_values (HRef o) (length items) values (update_missing (HRef defaults)) K
    = (Returns tt, K).
Proof.
  intros Hcat Htable Hvalues.
  induction Hvalues as [|v values (l & d & -> & Hd & Hcomplete) _ IH]; simpl.
  - unfold bind, dict_items, bind, deref. rewrite Hcat.
    unfold ret. now rewrite Nat.eqb_refl.
  - unfold bind at 1. unfold dict_items, bind, deref. rewrite Hcat.
    unfold ret. rewrite Nat.eqb_refl. unfold bind.
    rewrite (update_missing_runs K defaults l _ d Htable Hd).
    rewrite (update_complete env d Hcomplete), (replace_nth_same l _ K Hd).
    exact IH.
Qed.

Lemma apply_opdef_defaults_complete (h : heap) (o : loc) (items : Dict.t HVal) :
  nth_error h o = Some (ODict items) ->
  Forall (fun v => exists l d,
            v = HRef l /\ nth_error h l = Some (ODict d)
            /\ forall kv, In kv (opdef_defaults (HRef (length h))) ->
                 Dict.contains d (fst kv) = true) (Dict.values items) ->
  _apply_opdef_defaults (HRef o) h
    = (Returns tt,
       h ++ [ODict env_default; ODict (opdef_defaults (HRef (length h)))]).
Proof.
  intros Hcat Hvalues.
  rewrite (apply_opdef_defaults_loop h o items Hcat).
  replace (h ++ [ODict env_default; ODict (opdef_defaults (HRef (length h)))])
    with ((h ++ [ODict env_default]) ++ [ODict (opdef_defaults (HRef (length h)))])
    by (now rewrite <- app_assoc).
  destruct (filling_start h o items Hcat) as (_ & _ & Htable & Hcat' & _).
  apply (for_values_complete _ o (length h + 1) items (HRef (length h)));
    [exact Hcat' | exact Htable |].
  eapply Forall_impl; [| exact Hvalues].
  intros v (l & d & -> & Hd & Hcomplete). exists l, d.
  repeat split; [| exact Hcomplete].
  rewrite <- app_assoc, nth_error_app1; [exact Hd |].
  now apply nth_error_in_range in Hd.
Qed.

(** X8.  On operation definitions that already have all five fields the
    call changes nothing: it returns, and the store is the old one with
    the two dictionaries of the defaults allocated on top, referenced by
    nobody. *)
Theorem apply_opdef_defaults_leaves_complete_definitions
    (h : heap) (o : loc) (items : Dict.t HVal) :
  nth_error h o = Some (ODict items) ->
  (forall v, In v (Dict.values items) ->
     exists l d,
       v = HRef l /\ nth_error h l = Some (ODict d)
       /\ forall field,
            In field ["flag-encoder"; "default-max-trials"; "delete-on-success";
                      "can-stage-trials"; "env"] ->
            Dict.contains d field = true) ->
  _apply_opdef_defaults (HRef o) h
    = (Returns tt,
       h ++ [ODict [("NO_OP_INTERRUPTED_MSG", HStr "1")];
             ODict (opdef_defaults (HRef (length h)))]).
Proof.
  intros Hcat Hvalues. apply (apply_opdef_defaults_complete h o items Hcat).
  apply Forall_forall. intros v Hv.
  destruct (Hvalues v Hv) as (l & d & -> & Hd & Hcomplete).
  exists l, d. repeat split; [exact Hd |].
  intros kv Hin. apply Hcomplete. now apply (in_map fst) in Hin.
Qed.

(** One definition that declares all five fields. *)
Lemma apply_opdef_defaults_leaves_complete_definitions_example :
  _apply_opdef_defaults (HRef 1)
    [ODict [("flag-encoder", HNone); ("default-max-trials", HInt 5);
            ("delete-on-success", HBool true); ("can-stage-trials", HBool true);
            ("env", HNone)];
     ODict [("only", HRef 0)]]
  = (Returns tt,
     [ODict [("flag-encoder", HNone); ("default-max-trials", HInt 5);
             ("delete-on-success", HBool true); ("can-stage-trials", HBool true);
             ("env", HNone)];
      ODict [("only", HRef 0)];
      ODict [("NO_OP_INTERRUPTED_MSG", HStr "1")];
      ODict (opdef_defaults (HRef 2))]).
Proof.
  apply (apply_opdef_defaults_leaves_complete_definitions
           [ODict [("flag-encoder", HNone); ("default-max-trials", HInt 5);
                   ("delete-on-success", HBool true);
                   ("can-stage-trials", HBool true); ("env", HNone)];
            ODict [("only", HRef 0)]]
           1 [("only", HRef 0)] eq_refl).
  intros v [<- | []]. eexists. eexists.
  split; [reflexivity |]. split; [reflexivity |].
  intros field Hin. simpl in Hin.
  destruct Hin as [<- | [<- | [<- | [<- | [<- | []]]]]]; reflexivity.
Defined.

(** X9.  Default filling is idempotent on the store: applied a second time
    to the catalog it has filled, it returns again and changes no object;
    the second call only allocates its own two dictionaries of defaults,
    and the definitions keep referring to the environment of the first. *)
Theorem apply_opdef_defaults_twice (h : heap) (o : loc) (items : Dict.t HVal) :
  nth_error h o = Some (ODict items) ->
  Forall (is_opdef h o) (Dict.values items) ->
  exists h1,
    _apply_opdef_defaults (HRef o) h = (Returns tt, h1)
    /\ _apply_opdef_defaults (HRef o) h1
       = (Returns tt,
          h1 ++ [ODict [("NO_OP_INTERRUPTED_MSG", HStr "1")];
                 ODict (opdef_defaults (HRef (length h1)))]).
Proof.
  intros Hcat Hvalues.
  destruct (apply_opdef_defaults_returns h o items Hcat Hvalues)
    as (h1 & Hrun & _ & _ & _ & Hcat1 & Hdone & _).
  exists h1. split; [exact Hrun |].
  apply (apply_opdef_defaults_complete h1 o items Hcat1).
  apply Forall_forall. intros v Hv.
  destruct (proj1 (Forall_forall _ _) Hvalues v Hv) as (l & d & -> & Hd & _).
  exists l. eexists. split; [reflexivity |].
  split; [exact (Hdone l d Hv Hd) |].
  intros kv Hin.
  assert (Hkey : exists kv', In kv' (opdef_defaults (HRef (length h)))
                             /\ fst kv' = fst kv).
  { apply (in_map fst) in Hin.
    change (map fst (opdef_defaults (HRef (length h1))))
      with (map fst (opdef_defaults (HRef (length h)))) in Hin.
    apply in_map_iff in Hin as (kv' & Hfst & Hin'). now exists kv'. }
  destruct Hkey as (kv' & Hin' & <-).
  now apply filled_items_complete.
Qed.

(** A catalog of one definition, filled twice. *)
Lemma apply_opdef_defaults_twice_example :
  exists h1,
    _apply_opdef_defaults (HRef 1)
      [ODict [("exec", HStr "a")]; ODict [("only", HRef 0)]]
    = (Returns tt, h1)
    /\ _apply_opdef_defaults (HRef 1) h1
       = (Returns tt,
          h1 ++ [ODict [("NO_OP_INTERRUPTED_MSG", HStr "1")];
                 ODict (opdef_defaults (HRef (length h1)))]).
Proof.
  apply (apply_opdef_defaults_twice
           [ODict [("exec", HStr "a")]; ODict [("only", HRef 0)]]
           1 [("only", HRef 0)] eq_refl).
  repeat constructor. exists 0, [("exec", HStr "a")]. repeat split; discriminate.
Defined.

(** X10.  A value of the catalog that is no dictionary stops the call with
    an AttributeError, and the store keeps what was done before it: the
    operation definitions that precede the faulty value are filled, and
    every other object of the store, the definitions that follow included,
    is as it was. *)
Theorem apply_opdef_defaults_stops_at_a_value_without_update
    (h : heap) (o : loc) (items : Dict.t HVal)
    (before after : list HVal) (bad : HVal) :
  nth_error h o = Some (ODict items) ->
  Dict.values items = before ++ bad :: after ->
  Forall (is_opdef h o) before ->
  not_a_dict h bad ->
  exists h',
    _apply_opdef_defaults (HRef o) h = (Raises AttributeError, h')
    /\ (forall l declared,
          In (HRef l) before ->
          nth_error h l = Some (ODict declared) ->
          nth_error h' l
            = Some (ODict
                      (declared ++
                       filter (fun kv => negb (Dict.contains declared (fst kv)))
                         (opdef_defaults (HRef (length h))))))
    /\ (forall l,
          l < length h -> ~ In (HRef l) before ->
          nth_error h' l = nth_error h l).
Proof.
  intros Hcat Hvalues Hbefore Hbad.
  destruct (for_values_filling h o items before (bad :: after) [] _
              (filling_start h o items Hcat) Hbefore) as (h' & Hloop & Hfill).
  exists h'. split.
  - rewrite (apply_opdef_defaults_loop h o items Hcat), Hvalues, Hloop.
    exact (for_values_not_a_dict h o items _ after h' bad Hfill Hbad).
  - destruct Hfill as (_ & _ & _ & _ & Hdone & Hrest & _).
    split; assumption.
Qed.

(** A definition, then [None] where a definition should be, then another
    definition. *)
Lemma apply_opdef_defaults_stops_at_a_value_without_update_example :
  exists h',
    _apply_opdef_defaults (HRef 2)
      [ODict [("exec", HStr "a")];
       ODict [("exec", HStr "b")];
       ODict [("first", HRef 0); ("second", HNone); ("third", HRef 1)]]
    = (Raises AttributeError, h')
    /\ nth_error h' 0
       = Some (ODict [("exec", HStr "a");
                      ("flag-encoder",
                        HStr "guild.plugins.skopt:encode_flag_for_optimizer");
                      ("default-max-trials", HInt 20);
                      ("delete-on-success", HBool false);
                      ("can-stage-trials", HBool false);
                      ("env", HRef 3)])
    /\ nth_error h' 1 = Some (ODict [("exec", HStr "b")]).
Proof.
  destruct (apply_opdef_defaults_stops_at_a_value_without_update
              [ODict [("exec", HStr "a")];
               ODict [("exec", HStr "b")];
               ODict [("first", HRef 0); ("second", HNone); ("third", HRef 1)]]
              2 [("first", HRef 0); ("second", HNone); ("third", HRef 1)]
              [HRef 0] [HRef 1] HNone eq_refl eq_refl)
    as (h' & Hrun & Hfilled & Hrest).
  - repeat constructor. exists 0, [("exec", HStr "a")].
    repeat split; discriminate.
  - exact I.
  - exists h'. split; [exact Hrun |]. split.
    + apply (Hfilled 0 [("exec", HStr "a")]); [simpl; tauto | reflexivity].
    + rewrite (Hrest 1); [reflexivity | simpl; lia |].
      simpl. intros [[= H] | []].
Defined.

(** X11.  A catalog that is no dictionary: the call raises AttributeError at
    [opdefs.values()], after it has allocated the two dictionaries of the
    defaults, and changes no object. *)
Theorem apply_opdef_defaults_needs_a_dictionary (h : heap) (opdefs : HVal) :
  not_a_dict h opdefs ->
  _apply_opdef_defaults opdefs h
    = (Raises AttributeError,
       h ++ [ODict [("NO_OP_INTERRUPTED_MSG", HStr "1")];
             ODict (opdef_defaults (HRef (length h)))]).
Proof.
  intros Hbad. unfold _apply_opdef_defaults, bind, alloc.
  rewrite <- app_assoc. simpl app.
  destruct opdefs; simpl; try reflexivity.
  destruct Hbad as (xs & Hxs).
  unfold bind, deref. rewrite nth_error_app1 by now apply nth_error_in_range in Hxs.
  now rewrite Hxs.
Qed.

(** [None] for a catalog, and a list for a catalog. *)
Lemma apply_opdef_defaults_needs_a_dictionary_example :
  _apply_opdef_defaults HNone []
    = (Raises AttributeError,
       [ODict [("NO_OP_INTERRUPTED_MSG", HStr "1")];
        ODict (opdef_defaults (HRef 0))])
  /\ _apply_opdef_defaults (HRef 0) [OList [HInt 1]]
    = (Raises AttributeError,
       [OList [HInt 1];
        ODict [("NO_OP_INTERRUPTED_MSG", HStr "1")];
        ODict (opdef_defaults (HRef 1))]).
Proof.
  split.
  - exact (apply_opdef_defaults_needs_a_dictionary [] HNone I).
  - apply (apply_opdef_defaults_needs_a_dictionary [OList [HInt 1]] (HRef 0)).
    exists [HInt 1]. reflexivity.
Defined.

(** ** What the call leaves alone *)

Lemma dict_items_inv (v : HVal) (H H' : heap) (r : result (Dict.t HVal)) :
  dict_items v H = (r, H') ->
  H' = H
  /\ forall items, r = Returns items ->
       exists l, v = HRef l /\ nth_error H l = Some (ODict items).
Proof.
  destruct v; simpl; try (intros [= <- <-]; split; [reflexivity | discriminate]).
  unfold bind, deref. destruct (nth_error H l) as [[items | xs] |] eqn:El; simpl;
    intros [= <- <-]; (split; [reflexivity |]); try discriminate.
  intros items' [= <-]. now exists l.
Qed.

Lemma update_missing_frame (defaults v : HVal) (H H' : heap) (r : result unit) :
  update_missing defaults v H = (r, H') ->
  length H' = length H
  /\ forall l, v <> HRef l -> nth_error H' l = nth_error H l.
Proof.
  unfold update_missing, bind.
  destruct (dict_items v H) as [[items | e] H1] eqn:Ev;
    destruct (dict_items_inv _ _ _ _ Ev) as [-> Hv].
  - destruct (Hv items eq_refl) as (l & -> & Hl).
    destruct (dict_items defaults H) as [[d | e] H2] eqn:Ed;
      destruct (dict_items_inv _ _ _ _ Ed) as [-> _].
    + simpl. unfold assign. rewrite Hl. intros [= <- <-].
      split; [apply length_replace_nth |].
      intros l' Hne. apply nth_error_replace_nth_neq. congruence.
    + intros [= <- <-]. now split.
  - intros [= <- <-]. now split.
Qed.

Lemma for_values_frame (opdefs defaults : HVal) (size : nat) (values : list HVal)
    (H H' : heap) (r : result unit) :
  for_values opdefs size values (update_missing defaults) H = (r, H') ->
  length H' = length H
  /\ forall l, ~ In (HRef l) values -> nth_error H' l = nth_error H l.
Proof.
  revert H. induction values as [|v values IH]; intros H; simpl; unfold bind at 1.
  - destruct (dict_items opdefs H) as [[items | e] H1] eqn:Eo;
      destruct (dict_items_inv _ _ _ _ Eo) as [-> _].
    + destruct (Nat.eqb (length items) size); intros [= <- <-]; now split.
    + intros [= <- <-]. now split.
  - destruct (dict_items opdefs H) as [[items | e] H1] eqn:Eo;
      destruct (dict_items_inv _ _ _ _ Eo) as [-> _];
      [| intros [= <- <-]; now split].
    destruct (Nat.eqb (length items) size); [| intros [= <- <-]; now split].
    unfold bind.
    destruct (update_missing defaults v H) as [[[] | e] H1] eqn:Ev;
      destruct (update_missing_frame _ _ _ _ _ Ev) as [Hlen Hframe].
    + intros Hrest. destruct (IH H1 Hrest) as [Hlen' Hframe'].
      split; [congruence |].
      intros l Hnot. rewrite Hframe' by (intros Hin; apply Hnot; now right).
      apply Hframe. intros ->. apply Hnot. now left.
    + intros [= <- <-]. split; [exact Hlen |].
      intros l Hnot. apply Hframe. intros ->. apply Hnot. now left.
Qed.

(** X12.  What [_apply_opdef_defaults] leaves alone, however it ends.  On
    any store and for any argument, returning or raising, it allocates
    exactly two objects, and an object of the store keeps its content
    unless it is a value of the catalog dictionary. *)
Theorem apply_opdef_defaults_frame
    (opdefs : HVal) (h h' : heap) (r : result unit) :
  _apply_opdef_defaults opdefs h = (r, h') ->
  length h' = length h + 2
  /\ forall l,
       l < length h ->
       (forall o items,
          opdefs = HRef o -> nth_error h o = Some (ODict items) ->
          ~ In (HRef l) (Dict.values items)) ->
       nth_error h' l = nth_error h l.
Proof.
  unfold _apply_opdef_defaults, bind at 1 2, alloc. unfold bind at 1.
  set (H0 := (h ++ [ODict env_default]) ++ _).
  assert (Hlen0 : length H0 = length h + 2)
    by (unfold H0; rewrite !length_app; simpl; lia).
  assert (Hold : forall l, l < length h -> nth_error H0 l = nth_error h l)
    by (intros l Hl; unfold H0; rewrite <- app_assoc; now apply nth_error_app1).
  destruct (dict_items opdefs H0) as [[items | e] H1] eqn:Eo;
    destruct (dict_items_inv _ _ _ _ Eo) as [-> Hitems].
  - destruct (Hitems items eq_refl) as (o & -> & Ho).
    intros Hloop. destruct (for_values_frame _ _ _ _ _ _ _ Hloop) as [Hlen Hframe].
    split; [congruence |].
    intros l Hl Hnot. rewrite Hframe; [now apply Hold |].
    destruct (Nat.lt_ge_cases o (length h)) as [Holt | Hoge].
    + apply (Hnot o items eq_refl). now rewrite <- Hold.
    + unfold H0 in Ho. rewrite <- app_assoc, nth_error_app2 in Ho by exact Hoge.
      simpl in Ho.
      destruct (o - length h) as [|[|k]] eqn:Ek; simpl in Ho.
      * injection Ho as <-. simpl. intros [[=] | []].
      * injection Ho as <-. unfold Dict.values. simpl.
        intros [[=] | [[=] | [[=] | [[=] | [[= Heq] | []]]]]]. lia.
      * now destruct k.
  - intros [= <- <-]. split; [exact Hlen0 |]. intros l Hl _. now apply Hold.
Qed.

(** The store of the example before: the third definition, after the
    faulty value, is as it was, and so is the catalog. *)
Lemma apply_opdef_defaults_frame_example :
  length
    (snd (_apply_opdef_defaults (HRef 2)
            [ODict [("exec", HStr "a")];
             ODict [("exec", HStr "b")];
             ODict [("first", HRef 0); ("second", HNone); ("third", HRef 0)]]))
    = 3 + 2
  /\ nth_error
       (snd (_apply_opdef_defaults (HRef 2)
               [ODict [("exec", HStr "a")];
                ODict [("exec", HStr "b")];
                ODict [("first", HRef 0); ("second", HNone); ("third", HRef 0)]]))
       1
     = Some (ODict [("exec", HStr "b")]).
Proof.
  destruct (apply_opdef_defaults_frame (HRef 2)
              [ODict [("exec", HStr "a")];
               ODict [("exec", HStr "b")];
               ODict [("first", HRef 0); ("second", HNone); ("third", HRef 0)]]
              _ _ (surjective_pairing _)) as [Hlen Hframe].
  split; [exact Hlen |].
  rewrite (Hframe 1); [reflexivity | simpl; lia |].
  intros o items [= <-] [= <-]. simpl. intros [[=] | [[=] | [[=] | []]]].
Defined.
